(** * MapAiryDistributionFP64: the sweep harness of [_main.cpp]

    The repository's entry point drives the three engine functions
    [mapairy_pdf], [mapairy_cdf] and [mapairy_quantile] over grids of IEEE
    binary64 arguments and writes one CSV file per sweep.  This development
    embeds that harness: doubles are the binary64 instance of the standard
    [spec_float] model (every operation rounds to nearest even exactly as the
    hardware does), the [for] loops are a fuelled loop combinator, the output
    stream is a record carrying its text and formatting flags, and the engine
    itself, whose header is not part of the sources at hand, is a parameter
    of the harness. *)

From Stdlib Require Import String Ascii.
From Stdlib Require Import ZArith QArith List Bool Sorted Lia.
From Stdlib Require Import Floats.SpecFloat.
Import ListNotations.

Open Scope Z_scope.

(** ** IEEE binary64 as used by the C++ [double] *)

Module Double.

Definition double : Type := spec_float.

Definition prec : Z := 53.
Definition emax : Z := 1024.

(** Conversion of an [int] (or of an integral literal such as [1.]) to
    [double]; exact below [2^53]. *)
Definition of_int (z : Z) : double := binary_normalize prec emax z 0 false.

Definition add (x y : double) : double := SFadd prec emax x y.
Definition sub (x y : double) : double := SFsub prec emax x y.
Definition mul (x y : double) : double := SFmul prec emax x y.
Definition div (x y : double) : double := SFdiv prec emax x y.
Definition ldexp (x : double) (e : Z) : double := SFldexp prec emax x e.

(** The comparison operators; each is false as soon as an operand is NaN. *)
Definition ltb (x y : double) : bool := SFltb x y.
Definition leb (x y : double) : bool := SFleb x y.
Definition gtb (x y : double) : bool :=
  match SFcompare x y with
  | Some Gt => true
  | _ => false
  end.

(** [two_power k] is the rational [2^k], for any integer [k]. *)
Definition two_power (k : Z) : Q :=
  match k with
  | Zneg p => 1 # (2 ^ p)
  | _ => inject_Z (2 ^ k)
  end.

(** The real number a finite double denotes, as an exact rational. *)
Definition value (x : double) : option Q :=
  match x with
  | S754_zero _ => Some 0%Q
  | S754_finite s m e =>
      Some (inject_Z (cond_Zopp s (Zpos m)) * two_power e)%Q
  | S754_infinity _ | S754_nan => None
  end.

(** [x] is finite and denotes exactly [q]. *)
Definition has_value (x : double) (q : Q) : Prop :=
  exists v, value x = Some v /\ (v == q)%Q.

Definition has_valueb (x : double) (q : Q) : bool :=
  match value x with
  | Some v => Qeq_bool v q
  | None => false
  end.

(** [x] is finite and lies in the open interval [(lo, hi)]. *)
Definition strictly_between (lo hi : Q) (x : double) : Prop :=
  exists v, value x = Some v /\ (lo < v)%Q /\ (v < hi)%Q.

Definition strictly_betweenb (lo hi : Q) (x : double) : bool :=
  match value x with
  | Some v =>
      match (lo ?= v)%Q, (v ?= hi)%Q with
      | Lt, Lt => true
      | _, _ => false
      end
  | None => false
  end.

(** [x] is finite and lies in the half-open interval [[lo, hi)]. *)
Definition from_below (lo hi : Q) (x : double) : Prop :=
  exists v, value x = Some v /\ (lo <= v)%Q /\ (v < hi)%Q.

Definition from_belowb (lo hi : Q) (x : double) : bool :=
  match value x with
  | Some v =>
      match (lo ?= v)%Q, (v ?= hi)%Q with
      | (Lt | Eq), Lt => true
      | _, _ => false
      end
  | None => false
  end.

Definition lt (x y : double) : Prop := ltb x y = true.
Definition gt (x y : double) : Prop := gtb x y = true.

End Double.

Import Double.

(** ** The [for] loops

    Every loop of the harness has the shape
    [for (double x = x0; cond(x); x = next(x)) body(x)].  The body may itself
    be a loop, hence may run out of fuel. *)

Fixpoint for_loop {St : Type} (fuel : nat)
    (cond : double -> bool) (next : double -> double)
    (body : double -> St -> option St) (x : double) (s : St) : option St :=
  match fuel with
  | O => None
  | S n =>
      if cond x then
        match body x s with
        | Some s' => for_loop n cond next body (next x) s'
        | None => None
        end
      else Some s
  end.

(** The successive values of the loop variable at which the body runs: the
    same loop with a body that only records [x]. *)
Definition loop_values (fuel : nat) (cond : double -> bool)
    (next : double -> double) (x0 : double) : option (list double) :=
  option_map (fun acc => rev_append acc [])
    (for_loop fuel cond next (fun x acc => Some (x :: acc)) x0 []).

(** Left fold of a fallible body over a list. *)
Fixpoint foldM {A St : Type} (body : A -> St -> option St)
    (l : list A) (s : St) : option St :=
  match l with
  | [] => Some s
  | x :: l' =>
      match body x s with
      | Some s' => foldM body l' s'
      | None => None
      end
  end.

(** A fuelled computation returns [r] when every large enough fuel yields
    [r]. *)
Definition returns {A : Type} (run : nat -> option A) (r : A) : Prop :=
  exists n, forall fuel, (n <= fuel)%nat -> run fuel = Some r.

(** ** Output streams *)

Inductive floatfield : Type := ff_general | ff_fixed | ff_scientific.

Record ofstream : Type := mk_ofstream {
  filepath : string;
  text : string;
  flags : floatfield;
  precision : Z
}.

Definition newline : string := String (ascii_of_nat 10) EmptyString.

(** [ofstream ofs(filepath)]: the stream is taken to open; it starts empty,
    whatever a file at that path held before, with the default formatting
    state.  A stream that fails to open (its directory missing, say) drops
    every write; the harness never tests for it, and such runs are outside
    this development. *)
Definition open (path : string) : ofstream :=
  mk_ofstream path EmptyString ff_general 6.

Definition put_string (s : string) (o : ofstream) : ofstream :=
  mk_ofstream (filepath o) (text o ++ s) (flags o) (precision o).

Definition endl (o : ofstream) : ofstream := put_string newline o.

Definition scientific (o : ofstream) : ofstream :=
  mk_ofstream (filepath o) (text o) ff_scientific (precision o).

Definition setprecision (n : Z) (o : ofstream) : ofstream :=
  mk_ofstream (filepath o) (text o) (flags o) n.

(** ** Engine calls and the state of a run *)

Inductive call : Type :=
| CallPdf (x : double)
| CallCdf (x : double) (complement : bool)
| CallQuantile (p : double) (complement : bool).

(** The argument or probability a call passes to the engine. *)
Definition call_arg (c : call) : double :=
  match c with
  | CallPdf x => x
  | CallCdf x _ => x
  | CallQuantile p _ => p
  end.

(** What a run of the program leaves behind: the engine invocations in
    order, the console text, and in [files] the streams it has closed, in
    order, each with its path and all the text inserted into it.  [files]
    is the output of the run, not the state of a file system: a later
    stream on the same path would replace that file, not add one. *)
Record world : Type := mk_world {
  calls : list call;
  files : list (string * string);
  console : string
}.

Definition init_world : world := mk_world [] [] EmptyString.

(** State of one plot function while its file is open. *)
Definition plotting : Type := (list call * ofstream)%type.

(** The engine declared by [mapairy_distribution.hpp].  The second argument
    of [mapairy_cdf] and [mapairy_quantile] is the complement flag, false
    when the call omits it. *)
Class Engine : Type := {
  mapairy_pdf : double -> double;
  mapairy_cdf : double -> bool -> double;
  mapairy_quantile : double -> bool -> double
}.

(** The standard library's rendering of a double under the stream's
    float-field flag and precision. *)
Class Printer : Type := {
  num_put : floatfield -> Z -> double -> string
}.

(** ** The loop headers of [_main.cpp] *)

(** [for (double x = -6; x <= 64; x += 1. / 1024)] *)
Definition central_cond (x : double) : bool := leb x (of_int 64).
Definition central_next (x : double) : double :=
  add x (div (of_int 1) (of_int 1024)).
Definition central_init : double := of_int (-6).

(** [for (double x0 = 64; x0 <= ldexp(1, 64); x0 *= 2)] *)
Definition octave_cond (x0 : double) : bool := leb x0 (ldexp (of_int 1) 64).
Definition octave_next (x0 : double) : double := mul x0 (of_int 2).
Definition octave_init : double := of_int 64.

(** [for (double x = x0; x < x0 * 2; x += x0 / 256)] *)
Definition within_cond (x0 x : double) : bool := ltb x (mul x0 (of_int 2)).
Definition within_next (x0 x : double) : double :=
  add x (div x0 (of_int 256)).

(** [for (double x = 1. / 8192; x < 1; x += 1. / 8192)] *)
Definition prob_cond (x : double) : bool := ltb x (of_int 1).
Definition prob_next (x : double) : double :=
  add x (div (of_int 1) (of_int 8192)).
Definition prob_init : double := div (of_int 1) (of_int 8192).

(** [for (double x = 1. / 8192; x > ldexp(1, -1000); x /= 2)] *)
Definition lower_cond (x : double) : bool :=
  gtb x (ldexp (of_int 1) (-1000)).
Definition lower_next (x : double) : double := div x (of_int 2).

(** [for (double x0 = 1. / 8192; x0 > ldexp(1, -128); x0 /= 2)] *)
Definition upper_cond (x0 : double) : bool :=
  gtb x0 (ldexp (of_int 1) (-128)).
Definition upper_next (x0 : double) : double := div x0 (of_int 2).

(** [for (double x = x0; x > x0 / 2; x -= x0 / 256)] *)
Definition down_cond (x0 x : double) : bool := gtb x (div x0 (of_int 2)).
Definition down_next (x0 x : double) : double :=
  sub x (div x0 (of_int 256)).

(** A two-level loop nest: the inner loop starts at the outer variable. *)
Definition nest {St : Type} (fuel : nat)
    (cond : double -> bool) (next : double -> double)
    (icond : double -> double -> bool) (inext : double -> double -> double)
    (body : double -> St -> option St) (x0 : double) (s : St) : option St :=
  for_loop fuel cond next
    (fun x0 => for_loop fuel (icond x0) (inext x0) body x0) x0 s.

(** The successive values of the inner variable over the whole nest. *)
Definition nest_values (fuel : nat)
    (cond : double -> bool) (next : double -> double)
    (icond : double -> double -> bool) (inext : double -> double -> double)
    (x0 : double) : option (list double) :=
  option_map (fun acc => rev_append acc [])
    (nest fuel cond next icond inext (fun x acc => Some (x :: acc)) x0 []).

(** ** The plot functions and [main] *)

Section Harness.

Context `{Engine} `{Printer}.

Definition put_double (x : double) (o : ofstream) : ofstream :=
  put_string (num_put (flags o) (precision o) x) o.

Definition eval_pdf (x : double) (st : plotting) : double * plotting :=
  (mapairy_pdf x, (fst st ++ [CallPdf x], snd st)).

Definition eval_cdf (x : double) (c : bool) (st : plotting)
  : double * plotting :=
  (mapairy_cdf x c, (fst st ++ [CallCdf x c], snd st)).

Definition eval_quantile (p : double) (c : bool) (st : plotting)
  : double * plotting :=
  (mapairy_quantile p c, (fst st ++ [CallQuantile p c], snd st)).

Definition on_stream (f : ofstream -> ofstream) (st : plotting) : plotting :=
  (fst st, f (snd st)).

(** [ofs << "header" << endl; ofs << scientific << setprecision(16);] *)
Definition begin_file (path header : string) (w : world) : plotting :=
  (calls w,
   setprecision 16 (scientific (endl (put_string header (open path))))).

(** [ofs.close();]  The stream's path and text join the output of the
    run. *)
Definition close (w : world) (st : plotting) : world :=
  mk_world (fst st)
           (files w ++ [(filepath (snd st), text (snd st))])
           (console w).

(** [ofs << x << ',' << mapairy_pdf(x) << endl;] *)
Definition row_pdf (x : double) (st : plotting) : plotting :=
  let '(y, st) := eval_pdf x st in
  on_stream (fun o =>
    endl (put_double y (put_string "," (put_double x o)))) st.

(** [ofs << x << ',' << mapairy_cdf(x) << ',' << mapairy_cdf(x, true)
    << endl;]  The two calls are logged in the order they are written;
    the engine being a pure function, the text does not depend on it. *)
Definition row_cdf (x : double) (st : plotting) : plotting :=
  let '(y, st) := eval_cdf x false st in
  let '(z, st) := eval_cdf x true st in
  on_stream (fun o =>
    endl (put_double z (put_string "," (put_double y
      (put_string "," (put_double x o)))))) st.

(** [ofs << x << ',' << mapairy_cdf(x, true) << endl;] *)
Definition row_ccdf (x : double) (st : plotting) : plotting :=
  let '(y, st) := eval_cdf x true st in
  on_stream (fun o =>
    endl (put_double y (put_string "," (put_double x o)))) st.

(** [ofs << x << ',' << mapairy_quantile(x) << endl;] *)
Definition row_quantile (x : double) (st : plotting) : plotting :=
  let '(y, st) := eval_quantile x false st in
  on_stream (fun o =>
    endl (put_double y (put_string "," (put_double x o)))) st.

(** [ofs << x << ',' << mapairy_quantile(x, true) << endl;] *)
Definition row_cquantile (x : double) (st : plotting) : plotting :=
  let '(y, st) := eval_quantile x true st in
  on_stream (fun o =>
    endl (put_double y (put_string "," (put_double x o)))) st.

Definition pure_body (row : double -> plotting -> plotting)
  : double -> plotting -> option plotting :=
  fun x st => Some (row x st).

Definition plot_pdf (filepath : string) (w : world) (fuel : nat)
  : option world :=
  option_map (close w)
    (for_loop fuel central_cond central_next (pure_body row_pdf)
       central_init (begin_file filepath "x,pdf" w)).

Definition plot_pdf_limit (filepath : string) (w : world) (fuel : nat)
  : option world :=
  option_map (close w)
    (nest fuel octave_cond octave_next within_cond within_next
       (pure_body row_pdf) octave_init (begin_file filepath "x,pdf" w)).

Definition plot_cdf (filepath : string) (w : world) (fuel : nat)
  : option world :=
  option_map (close w)
    (for_loop fuel central_cond central_next (pure_body row_cdf)
       central_init (begin_file filepath "x,cdf,ccdf" w)).

Definition plot_cdf_limit (filepath : string) (w : world) (fuel : nat)
  : option world :=
  option_map (close w)
    (nest fuel octave_cond octave_next within_cond within_next
       (pure_body row_ccdf) octave_init (begin_file filepath "x,ccdf" w)).

Definition plot_quantile (filepath : string) (w : world) (fuel : nat)
  : option world :=
  option_map (close w)
    (for_loop fuel prob_cond prob_next (pure_body row_quantile)
       prob_init (begin_file filepath "x,quantile" w)).

Definition plot_quantilelower_limit (filepath : string) (w : world)
    (fuel : nat) : option world :=
  option_map (close w)
    (for_loop fuel lower_cond lower_next (pure_body row_quantile)
       prob_init (begin_file filepath "x,quantile" w)).

Definition plot_quantileupper_limit (filepath : string) (w : world)
    (fuel : nat) : option world :=
  option_map (close w)
    (nest fuel upper_cond upper_next down_cond down_next
       (pure_body row_cquantile) prob_init
       (begin_file filepath "x,cquantile" w)).

(** [std::cout << "END" << std::endl;] *)
Definition print_end (w : world) : world :=
  mk_world (calls w) (files w) (console w ++ "END" ++ newline).

(** Two steps of the program in sequence; the first may run out of
    fuel. *)
Definition and_then (f g : world -> nat -> option world)
  : world -> nat -> option world :=
  fun w fuel =>
    match f w fuel with
    | Some w' => g w' fuel
    | None => None
    end.

Definition finish (w : world) (fuel : nat) : option world :=
  Some (print_end w).

Definition main : world -> nat -> option world :=
  and_then (plot_pdf "../results/mapairy_pdf_cpp.csv")
  (and_then (plot_pdf_limit "../results/mapairy_pdf_limit_cpp.csv")
  (and_then (plot_cdf "../results/mapairy_cdf_cpp.csv")
  (and_then (plot_cdf_limit "../results/mapairy_cdf_limit_cpp.csv")
  (and_then (plot_quantile "../results/mapairy_quantile_cpp.csv")
  (and_then (plot_quantilelower_limit
               "../results/mapairy_quantilelower_limit_cpp.csv")
  (and_then (plot_quantileupper_limit
               "../results/mapairy_quantileupper_limit_cpp.csv")
            finish)))))).

(** *** What a sweep is expected to leave behind *)

(** A double as the files show it: scientific notation, precision 16. *)
Definition sci16 (x : double) : string := num_put ff_scientific 16 x.

Definition line_pdf (x : double) : string :=
  sci16 x ++ "," ++ sci16 (mapairy_pdf x) ++ newline.

Definition line_cdf (x : double) : string :=
  sci16 x ++ "," ++ sci16 (mapairy_cdf x false) ++ ","
    ++ sci16 (mapairy_cdf x true) ++ newline.

Definition line_ccdf (x : double) : string :=
  sci16 x ++ "," ++ sci16 (mapairy_cdf x true) ++ newline.

Definition line_quantile (x : double) : string :=
  sci16 x ++ "," ++ sci16 (mapairy_quantile x false) ++ newline.

Definition line_cquantile (x : double) : string :=
  sci16 x ++ "," ++ sci16 (mapairy_quantile x true) ++ newline.

(** The formatting state in which every row is written. *)
Definition ready (o : ofstream) : Prop :=
  flags o = ff_scientific /\ precision o = 16.

(** [row] logs the calls [cs x] and appends the text [line x]. *)
Definition row_spec (row : double -> plotting -> plotting)
    (cs : double -> list call) (line : double -> string) : Prop :=
  forall x log o, ready o ->
    row x (log, o) = (log ++ cs x, put_string (line x) o).

End Harness.

(** The rows of a file, one line per swept input. *)
Fixpoint rows_text (line : double -> string) (xs : list double) : string :=
  match xs with
  | [] => EmptyString
  | x :: xs' => line x ++ rows_text line xs'
  end.

(** The world after a sweep over [xs] that writes [header], then one
    [line] per input, to [path], calling the engine with [cs x] at each
    input [x]. *)
Definition swept (path header : string) (cs : double -> list call)
    (line : double -> string) (xs : list double) (w : world) : world :=
  mk_world (calls w ++ flat_map cs xs)
           (files w
              ++ [(path, (header ++ newline ++ rows_text line xs)%string)])
           (console w).

Definition calls_pdf (x : double) : list call := [CallPdf x].
Definition calls_cdf (x : double) : list call :=
  [CallCdf x false; CallCdf x true].
Definition calls_ccdf (x : double) : list call := [CallCdf x true].
Definition calls_quantile (x : double) : list call := [CallQuantile x false].
Definition calls_cquantile (x : double) : list call :=
  [CallQuantile x true].

(** The world [main] leaves behind when the central, tail, probability,
    lower-limit and upper-limit loops take the values [xc], [xt], [xp],
    [xl] and [xu]. *)
Definition main_end `{Engine} `{Printer} (xc xt xp xl xu : list double)
    (w : world) : world :=
  print_end
    (swept "../results/mapairy_quantileupper_limit_cpp.csv" "x,cquantile"
       calls_cquantile line_cquantile xu
    (swept "../results/mapairy_quantilelower_limit_cpp.csv" "x,quantile"
       calls_quantile line_quantile xl
    (swept "../results/mapairy_quantile_cpp.csv" "x,quantile"
       calls_quantile line_quantile xp
    (swept "../results/mapairy_cdf_limit_cpp.csv" "x,ccdf"
       calls_ccdf line_ccdf xt
    (swept "../results/mapairy_cdf_cpp.csv" "x,cdf,ccdf"
       calls_cdf line_cdf xc
    (swept "../results/mapairy_pdf_limit_cpp.csv" "x,pdf"
       calls_pdf line_pdf xt
    (swept "../results/mapairy_pdf_cpp.csv" "x,pdf"
       calls_pdf line_pdf xc w))))))).

(** Number of engine calls made between the worlds [w] and [w']. *)
Definition calls_since (w w' : world) : Z :=
  Z.of_nat (length (calls w')) - Z.of_nat (length (calls w)).

(** Modelled from the spec: the engine's quantile function, whose source is
    not at hand, treats a probability outside the open interval (0, 1),
    the bounds 0 and 1 included, as a domain error. *)
Definition quantile_domain_error (p : double) : bool :=
  negb (strictly_betweenb 0 1 p).

(** ** The grids the sweeps are meant to visit, by index *)

(** [-6 + i * 2^-10] *)
Definition central_grid (i : Z) : Q :=
  (-6 + inject_Z i * two_power (-10))%Q.

(** [2^(6 + i)] *)
Definition octave_grid (i : Z) : Q := two_power (6 + i).

(** 256 points per octave: [2^(6 + i / 256) * (1 + (i mod 256) / 256)] *)
Definition tail_grid (i : Z) : Q :=
  (two_power (6 + i / 256) * (1 + inject_Z (i mod 256) * two_power (-8)))%Q.

(** [(i + 1) * 2^-13] *)
Definition prob_grid (i : Z) : Q := (inject_Z (i + 1) * two_power (-13))%Q.

(** [2^-(13 + i)] *)
Definition halving_grid (i : Z) : Q := two_power (- 13 - i).

(** 128 points per octave, downwards:
    [2^-(13 + i / 128) * (1 - (i mod 128) / 256)] *)
Definition upper_grid (i : Z) : Q :=
  (two_power (- 13 - i / 128)
   * (1 - inject_Z (i mod 128) * two_power (-8)))%Q.

(** ** Checks evaluated on the loops *)

(** Length as a binary integer. *)
Definition lengthZ {A : Type} (l : list A) : Z :=
  fold_left (fun n _ => n + 1) l 0.

(** The element of index [i] (counted from [k]) denotes [g (k + i)]. *)
Fixpoint on_grid (g : Z -> Q) (k : Z) (xs : list double) : bool :=
  match xs with
  | [] => true
  | x :: xs' => has_valueb x (g k) && on_grid g (k + 1) xs'
  end.

(** Neighbours are related by the boolean relation [r]. *)
Fixpoint chain (r : double -> double -> bool) (xs : list double) : bool :=
  match xs with
  | [] => true
  | x :: xs' =>
      match xs' with
      | [] => true
      | y :: _ => r x y && chain r xs'
      end
  end.

Definition checked (o : option (list double)) (p : list double -> bool)
  : bool :=
  match o with
  | Some l => p l
  | None => false
  end.

(** *** [x = -6; x <= 64; x += 1. / 1024] *)

Definition central_fuel : nat := Z.to_nat 71682.

Definition central_ok (l : list double) : bool :=
  (lengthZ l =? 71681) && on_grid central_grid 0 l && chain ltb l.

Definition central_props (xs : list double) : Prop :=
  Z.of_nat (length xs) = 71681
  /\ (forall i x, nth_error xs i = Some x ->
                  has_value x (central_grid (Z.of_nat i)))
  /\ Sorted lt xs.

(** *** [x0 = 64; x0 <= ldexp(1, 64); x0 *= 2] and its inner loop *)

Definition tail_fuel : nat := Z.to_nat 257.

Definition octave_ok (l : list double) : bool :=
  (lengthZ l =? 59) && on_grid octave_grid 0 l.

Definition octave_props (xs : list double) : Prop :=
  Z.of_nat (length xs) = 59
  /\ (forall i x, nth_error xs i = Some x ->
                  has_value x (octave_grid (Z.of_nat i))).

Definition tail_ok (l : list double) : bool :=
  (lengthZ l =? 15104) && on_grid tail_grid 0 l && chain ltb l
  && forallb (from_belowb 64 (two_power 65)) l.

Definition tail_props (xs : list double) : Prop :=
  Z.of_nat (length xs) = 15104
  /\ (forall i x, nth_error xs i = Some x ->
                  has_value x (tail_grid (Z.of_nat i)))
  /\ Sorted lt xs
  /\ Forall (from_below 64 (two_power 65)) xs.

(** *** [x = 1. / 8192; x < 1; x += 1. / 8192] *)

Definition prob_fuel : nat := Z.to_nat 8192.

Definition prob_ok (l : list double) : bool :=
  (lengthZ l =? 8191) && on_grid prob_grid 0 l && chain ltb l
  && forallb (strictly_betweenb 0 1) l.

Definition prob_props (xs : list double) : Prop :=
  Z.of_nat (length xs) = 8191
  /\ (forall i x, nth_error xs i = Some x ->
                  has_value x (prob_grid (Z.of_nat i)))
  /\ Sorted lt xs
  /\ Forall (strictly_between 0 1) xs.

(** *** [x = 1. / 8192; x > ldexp(1, -1000); x /= 2] *)

Definition lower_fuel : nat := Z.to_nat 988.

Definition lower_ok (l : list double) : bool :=
  (lengthZ l =? 987) && on_grid halving_grid 0 l && chain gtb l
  && forallb (strictly_betweenb (two_power (-1000)) 1) l.

Definition lower_props (xs : list double) : Prop :=
  Z.of_nat (length xs) = 987
  /\ (forall i x, nth_error xs i = Some x ->
                  has_value x (halving_grid (Z.of_nat i)))
  /\ Sorted gt xs
  /\ Forall (strictly_between (two_power (-1000)) 1) xs.

(** *** [x0 = 1. / 8192; x0 > ldexp(1, -128); x0 /= 2] and its inner loop *)

Definition upper_fuel : nat := Z.to_nat 129.

Definition upper_ok (l : list double) : bool :=
  (lengthZ l =? 14720) && on_grid upper_grid 0 l && chain gtb l
  && forallb (strictly_betweenb (two_power (-128)) 1) l.

Definition upper_props (xs : list double) : Prop :=
  Z.of_nat (length xs) = 14720
  /\ (forall i x, nth_error xs i = Some x ->
                  has_value x (upper_grid (Z.of_nat i)))
  /\ Sorted gt xs
  /\ Forall (strictly_between (two_power (-128)) 1) xs.

(** ** Reading the output back, and further vocabulary *)

(** Number of occurrences of the character [c] in [s]. *)
Fixpoint count_char (c : ascii) (s : string) : nat :=
  match s with
  | EmptyString => O
  | String a s' =>
      if Ascii.eqb a c then S (count_char c s') else count_char c s'
  end.

Definition newline_char : ascii := ascii_of_nat 10.
Definition comma_char : ascii := ascii_of_nat 44.

(** The lines of a text, each without its terminating newline. *)
Fixpoint lines (s : string) : list string :=
  match s with
  | EmptyString => []
  | String a s' =>
      if Ascii.eqb a newline_char then EmptyString :: lines s'
      else match lines s' with
           | [] => [String a EmptyString]
           | l :: ls => String a l :: ls
           end
  end.

(** Number of comma-separated fields of a line. *)
Definition fields (l : string) : nat := S (count_char comma_char l).

(** A printer whose rendering of a number holds neither a newline nor a
    comma, as in the classic locale. *)
Definition plain_printer `{Printer} : Prop :=
  forall f n x,
    count_char newline_char (num_put f n x) = O
    /\ count_char comma_char (num_put f n x) = O.

(** [content] reads back as the line [header] followed by [n] lines, every
    line holding [k] fields. *)
Definition csv_table (header : string) (k : nat) (n : Z) (content : string)
  : Prop :=
  exists rows,
    lines content = header :: rows
    /\ Z.of_nat (length rows) = n
    /\ Forall (fun l => fields l = k) (header :: rows).

(** [run], started in [w], returns after adding to the files one file
    [path] that reads back as a table. *)
Definition writes_table (run : nat -> option world) (w : world)
    (path header : string) (k : nat) (n : Z) : Prop :=
  exists w' content,
    returns run w'
    /\ files w' = files w ++ [(path, content)]
    /\ csv_table header k n content.

(** What the seven plot functions write, read back. *)
Definition tables_written `{Engine} `{Printer} (path : string) (w : world)
  : Prop :=
  writes_table (plot_pdf path w) w path "x,pdf" 2 71681
  /\ writes_table (plot_pdf_limit path w) w path "x,pdf" 2 15104
  /\ writes_table (plot_cdf path w) w path "x,cdf,ccdf" 3 71681
  /\ writes_table (plot_cdf_limit path w) w path "x,ccdf" 2 15104
  /\ writes_table (plot_quantile path w) w path "x,quantile" 2 8191
  /\ writes_table (plot_quantilelower_limit path w) w path
       "x,quantile" 2 987
  /\ writes_table (plot_quantileupper_limit path w) w path
       "x,cquantile" 2 14720.

(** An engine and a printer to run the harness with. *)
Definition sample_engine : Engine :=
  Build_Engine (fun x => x) (fun x _ => x) (fun x _ => x).
Definition sample_printer : Printer :=
  Build_Printer (fun _ _ _ => "0"%string).

(** [x] is finite and lies in the closed interval [[lo, hi]]. *)
Definition between (lo hi : Q) (x : double) : Prop :=
  exists v, value x = Some v /\ (lo <= v)%Q /\ (v <= hi)%Q.

(** [x] is a finite double: neither NaN nor an infinity. *)
Definition finite (x : double) : Prop := exists v, value x = Some v.

(** The calls made at [x] pass [x] itself. *)
Definition passes_input (cs : double -> list call) : Prop :=
  forall x c, In c (cs x) -> call_arg c = x.


(** * Proofs *)

(** ** Reflection of the boolean checks on doubles *)

Lemma has_valueb_sound (x : double) (q : Q) :
  has_valueb x q = true -> has_value x q.
Proof.
  unfold has_valueb, has_value.
  destruct (value x) as [v|]; [|discriminate].
  intros E. exists v. split; [reflexivity|]. now apply Qeq_bool_eq.
Qed.

Lemma strictly_betweenb_sound (lo hi : Q) (x : double) :
  strictly_betweenb lo hi x = true -> strictly_between lo hi x.
Proof.
  unfold strictly_betweenb, strictly_between.
  destruct (value x) as [v|]; [|discriminate].
  destruct (lo ?= v)%Q eqn:E1; try discriminate.
  destruct (v ?= hi)%Q eqn:E2; try discriminate.
  intros _. exists v. split; [reflexivity|].
  split; rewrite Qlt_alt; assumption.
Qed.

Lemma from_belowb_sound (lo hi : Q) (x : double) :
  from_belowb lo hi x = true -> from_below lo hi x.
Proof.
  unfold from_belowb, from_below.
  destruct (value x) as [v|]; [|discriminate].
  destruct (lo ?= v)%Q eqn:E1; try discriminate;
    (destruct (v ?= hi)%Q eqn:E2; try discriminate);
    intros _; exists v; (split; [reflexivity|]); split;
    try (rewrite Qlt_alt; assumption); rewrite Qle_alt; congruence.
Qed.

Lemma has_value_unique (x : double) (q r : Q) :
  has_value x q -> has_value x r -> (q == r)%Q.
Proof.
  intros (v & Hv & Hq) (v' & Hv' & Hr).
  rewrite Hv in Hv'. injection Hv' as <-.
  now rewrite <- Hq, <- Hr.
Qed.

Lemma has_value_eq (x : double) (q r : Q) :
  (q == r)%Q -> has_value x q -> has_value x r.
Proof.
  intros E (v & Hv & Hq). exists v. split; [exact Hv|].
  now rewrite Hq.
Qed.

Lemma strictly_between_weaken (lo lo' hi : Q) (x : double) :
  (lo' <= lo)%Q -> strictly_between lo hi x -> strictly_between lo' hi x.
Proof.
  intros Hl (v & Hv & H1 & H2). exists v. split; [exact Hv|].
  split; [|exact H2]. eapply Qle_lt_trans; eassumption.
Qed.

Lemma strictly_between_complete (lo hi : Q) (x : double) :
  strictly_between lo hi x -> strictly_betweenb lo hi x = true.
Proof.
  intros (v & Hv & H1 & H2). unfold strictly_betweenb. rewrite Hv.
  rewrite Qlt_alt in H1, H2. now rewrite H1, H2.
Qed.

(** A value strictly above [q] is not [q]. *)
Lemma strictly_between_not_value (lo hi : Q) (x : double) :
  strictly_between lo hi x -> ~ has_value x lo.
Proof.
  intros (v & Hv & H1 & _) (v' & Hv' & E).
  rewrite Hv in Hv'. injection Hv' as <-.
  rewrite E in H1. exact (Qlt_irrefl _ H1).
Qed.

(** ** Lists checked element by element *)

Lemma lengthZ_length {A : Type} (l : list A) :
  lengthZ l = Z.of_nat (length l).
Proof.
  unfold lengthZ.
  assert (E : forall n, fold_left (fun n (_ : A) => n + 1) l n
                        = n + Z.of_nat (length l)).
  { induction l as [|a l IH]; intros n; simpl length; simpl fold_left.
    - lia.
    - rewrite IH. lia. }
  now rewrite E.
Qed.

Lemma on_grid_nth (g : Z -> Q) (xs : list double) :
  forall k, on_grid g k xs = true ->
  forall i x, nth_error xs i = Some x -> has_value x (g (k + Z.of_nat i)).
Proof.
  induction xs as [|y xs IH]; intros k E i x Hi.
  - destruct i; discriminate.
  - simpl in E. apply andb_true_iff in E. destruct E as [Hy Hxs].
    destruct i as [|i]; simpl in Hi.
    + injection Hi as <-. replace (k + Z.of_nat 0) with k by lia.
      now apply has_valueb_sound.
    + replace (k + Z.of_nat (S i)) with (k + 1 + Z.of_nat i) by lia.
      now apply (IH (k + 1)).
Qed.

Lemma chain_Sorted (r : double -> double -> bool) (xs : list double) :
  chain r xs = true -> Sorted (fun x y => r x y = true) xs.
Proof.
  induction xs as [|x xs IH]; intros E.
  - constructor.
  - destruct xs as [|y xs].
    + constructor; constructor.
    + simpl in E. apply andb_true_iff in E. destruct E as [Hxy Hrest].
      constructor.
      * apply IH. exact Hrest.
      * constructor. exact Hxy.
Qed.

Lemma forallb_Forall {A : Type} (p : A -> bool) (P : A -> Prop)
    (l : list A) :
  (forall a, p a = true -> P a) -> forallb p l = true -> Forall P l.
Proof.
  intros Hp E. apply Forall_forall. intros a Ha. apply Hp.
  revert a Ha. now apply forallb_forall.
Qed.

(** Every index below the length holds an element. *)
Lemma nth_error_below {A : Type} (l : list A) (i n : Z) :
  Z.of_nat (length l) = n -> 0 <= i < n ->
  exists a, nth_error l (Z.to_nat i) = Some a.
Proof.
  intros Hn Hi.
  destruct (nth_error l (Z.to_nat i)) as [a|] eqn:E; [now exists a|].
  apply nth_error_None in E. lia.
Qed.

(** ** Strings *)

Lemma string_app_assoc (a b c : string) :
  ((a ++ b) ++ c = a ++ (b ++ c))%string.
Proof.
  induction a as [|ch a IH]; simpl; [reflexivity|]. now rewrite IH.
Qed.

Lemma string_app_nil_r (a : string) : (a ++ "" = a)%string.
Proof.
  induction a as [|ch a IH]; simpl; [reflexivity|]. now rewrite IH.
Qed.

(** ** The loop combinator *)

Lemma foldM_app {A St : Type} (body : A -> St -> option St)
    (l1 l2 : list A) :
  forall s, foldM body (l1 ++ l2) s
            = match foldM body l1 s with
              | Some s' => foldM body l2 s'
              | None => None
              end.
Proof.
  induction l1 as [|a l1 IH]; intros s; simpl; [reflexivity|].
  destruct (body a s); [apply IH|reflexivity].
Qed.

Lemma foldM_pure {A St : Type} (f : A -> St -> St) (l : list A) :
  forall s, foldM (fun x s => Some (f x s)) l s
            = Some (fold_left (fun s x => f x s) l s).
Proof.
  induction l as [|x l IH]; intros s; simpl; [reflexivity|apply IH].
Qed.

Section LoopFacts.

Context {St : Type}.
Variable cond : double -> bool.
Variable next : double -> double.

(** More fuel, and a body that succeeds at least as often, give the same
    result. *)
Lemma for_loop_mono (b1 b2 : double -> St -> option St) :
  (forall x s r, b1 x s = Some r -> b2 x s = Some r) ->
  forall n m x s r, (n <= m)%nat ->
  for_loop n cond next b1 x s = Some r ->
  for_loop m cond next b2 x s = Some r.
Proof.
  intros Hb. induction n as [|n IH]; intros m x s r Hnm E.
  - discriminate.
  - destruct m as [|m]; [lia|].
    simpl in *. destruct (cond x); [|exact E].
    destruct (b1 x s) as [s'|] eqn:E1; [|discriminate].
    rewrite (Hb _ _ _ E1). apply IH; [lia|exact E].
Qed.

(** A loop that records its variable determines every loop with the same
    header. *)
Lemma for_loop_record (body : double -> St -> option St) :
  forall n x acc0 acc,
  for_loop n cond next (fun y a => Some (y :: a)) x acc0 = Some acc ->
  exists l, acc = rev l ++ acc0 /\
    forall s, for_loop n cond next body x s = foldM body l s.
Proof.
  induction n as [|n IH]; intros x acc0 acc E.
  - discriminate.
  - simpl in E. destruct (cond x) eqn:C.
    + apply IH in E. destruct E as (l & -> & Hl).
      exists (x :: l). split.
      * simpl. now rewrite <- app_assoc.
      * intros s. simpl. rewrite C.
        destruct (body x s); [apply Hl|reflexivity].
    + injection E as <-. exists []. split; [reflexivity|].
      intros s. simpl. now rewrite C.
Qed.

End LoopFacts.

Lemma loop_values_fold {St : Type} cond next
    (body : double -> St -> option St) n x0 l s :
  loop_values n cond next x0 = Some l ->
  for_loop n cond next body x0 s = foldM body l s.
Proof.
  unfold loop_values. intros E.
  destruct (for_loop n cond next (fun y a => Some (y :: a)) x0 [])
    as [acc|] eqn:E1; [|discriminate].
  injection E as <-.
  destruct (for_loop_record cond next body _ _ _ _ E1) as (l & -> & Hl).
  rewrite rev_append_rev, !app_nil_r, rev_involutive. apply Hl.
Qed.

Lemma loop_values_mono cond next x0 n m l :
  (n <= m)%nat ->
  loop_values n cond next x0 = Some l -> loop_values m cond next x0 = Some l.
Proof.
  unfold loop_values. intros Hnm E.
  destruct (for_loop n cond next (fun y a => Some (y :: a)) x0 [])
    as [acc|] eqn:E1; [|discriminate].
  rewrite (for_loop_mono cond next _ _ (fun _ _ _ e => e) _ _ _ _ _ Hnm E1).
  exact E.
Qed.

Section NestFacts.

Context {St : Type}.
Variable cond : double -> bool.
Variable next : double -> double.
Variable icond : double -> double -> bool.
Variable inext : double -> double -> double.

Lemma nest_mono (body : double -> St -> option St) n m x s r :
  (n <= m)%nat ->
  nest n cond next icond inext body x s = Some r ->
  nest m cond next icond inext body x s = Some r.
Proof.
  unfold nest. intros Hnm. apply for_loop_mono; [|exact Hnm].
  intros x0 s0 r0. apply for_loop_mono; [|exact Hnm]. auto.
Qed.

(** A nest that records its inner variable determines every nest with
    the same headers; [k] is the fuel of the inner loops. *)
Lemma nest_record (body : double -> St -> option St) (k : nat) :
  forall n x acc0 acc,
  for_loop n cond next
    (fun x0 => for_loop k (icond x0) (inext x0)
                 (fun y a => Some (y :: a)) x0) x acc0 = Some acc ->
  exists l, acc = rev l ++ acc0 /\
    forall s,
      for_loop n cond next
        (fun x0 => for_loop k (icond x0) (inext x0) body x0) x s
      = foldM body l s.
Proof.
  induction n as [|n IH]; intros x acc0 acc E.
  - discriminate.
  - simpl in E. destruct (cond x) eqn:C.
    + destruct (for_loop k (icond x) (inext x)
                  (fun y a => Some (y :: a)) x acc0) as [acc1|] eqn:E1;
        [|discriminate].
      destruct (for_loop_record (icond x) (inext x) body _ _ _ _ E1)
        as (l1 & -> & Hl1).
      apply IH in E. destruct E as (l & -> & Hl).
      exists (l1 ++ l). split.
      * now rewrite rev_app_distr, <- app_assoc.
      * intros s. simpl. rewrite C, Hl1, foldM_app.
        destruct (foldM body l1 s); [apply Hl|reflexivity].
    + injection E as <-. exists []. split; [reflexivity|].
      intros s. simpl. now rewrite C.
Qed.

End NestFacts.

Lemma nest_values_fold {St : Type} cond next icond inext
    (body : double -> St -> option St) n x0 l s :
  nest_values n cond next icond inext x0 = Some l ->
  nest n cond next icond inext body x0 s = foldM body l s.
Proof.
  unfold nest_values, nest. intros E.
  destruct (for_loop n cond next _ x0 []) as [acc|] eqn:E1; [|discriminate].
  injection E as <-.
  destruct (nest_record cond next icond inext body _ _ _ _ _ E1)
    as (l & -> & Hl).
  rewrite rev_append_rev, !app_nil_r, rev_involutive. apply Hl.
Qed.

Lemma nest_values_mono cond next icond inext x0 n m l :
  (n <= m)%nat ->
  nest_values n cond next icond inext x0 = Some l ->
  nest_values m cond next icond inext x0 = Some l.
Proof.
  unfold nest_values. intros Hnm E.
  destruct (nest n cond next icond inext _ x0 []) as [acc|] eqn:E1;
    [|discriminate].
  rewrite (nest_mono cond next icond inext _ _ _ _ _ _ Hnm E1).
  exact E.
Qed.

(** ** Fuelled computations *)

Lemma returns_unique {A : Type} (run : nat -> option A) (r1 r2 : A) :
  returns run r1 -> returns run r2 -> r1 = r2.
Proof.
  intros [n1 H1] [n2 H2].
  specialize (H1 (Nat.max n1 n2) (Nat.le_max_l _ _)).
  specialize (H2 (Nat.max n1 n2) (Nat.le_max_r _ _)).
  congruence.
Qed.

Lemma returns_loop_values cond next x0 n l :
  loop_values n cond next x0 = Some l ->
  returns (fun fuel => loop_values fuel cond next x0) l.
Proof.
  intros E. exists n. intros fuel Hf. now apply (loop_values_mono _ _ _ n).
Qed.

Lemma returns_nest_values cond next icond inext x0 n l :
  nest_values n cond next icond inext x0 = Some l ->
  returns (fun fuel => nest_values fuel cond next icond inext x0) l.
Proof.
  intros E. exists n. intros fuel Hf.
  now apply (nest_values_mono _ _ _ _ _ n).
Qed.

(** ** Streams and rows *)

Lemma put_string_twice (a b : string) (o : ofstream) :
  put_string b (put_string a o) = put_string (a ++ b) o.
Proof.
  unfold put_string; simpl. now rewrite string_app_assoc.
Qed.

Lemma put_string_nil (o : ofstream) : put_string "" o = o.
Proof.
  destruct o as [p t f n]. unfold put_string; simpl.
  now rewrite string_app_nil_r.
Qed.

Section SweepFacts.

Context `{Engine} `{Printer}.

Lemma ready_put_string (a : string) (o : ofstream) :
  ready o -> ready (put_string a o).
Proof. intros [Hf Hp]. split; assumption. Qed.

Lemma put_double_ready (x : double) (o : ofstream) :
  ready o -> put_double x o = put_string (sci16 x) o.
Proof.
  intros [Hf Hp]. unfold put_double, sci16. now rewrite Hf, Hp.
Qed.

(** Two cells and the end of line, as [row_pdf] and its like emit them. *)
Lemma two_cells (x y : double) (o : ofstream) :
  ready o ->
  endl (put_double y (put_string "," (put_double x o)))
  = put_string (sci16 x ++ "," ++ sci16 y ++ newline) o.
Proof.
  intros Ho. unfold endl.
  rewrite (put_double_ready x o Ho), put_string_twice.
  rewrite put_double_ready by (apply ready_put_string; exact Ho).
  rewrite !put_string_twice. f_equal.
  now rewrite !string_app_assoc.
Qed.

Lemma row_pdf_spec : row_spec row_pdf calls_pdf line_pdf.
Proof.
  intros x log o Ho. unfold row_pdf, eval_pdf, on_stream; simpl.
  now rewrite two_cells.
Qed.

Lemma row_ccdf_spec : row_spec row_ccdf calls_ccdf line_ccdf.
Proof.
  intros x log o Ho. unfold row_ccdf, eval_cdf, on_stream; simpl.
  now rewrite two_cells.
Qed.

Lemma row_quantile_spec :
  row_spec row_quantile calls_quantile line_quantile.
Proof.
  intros x log o Ho. unfold row_quantile, eval_quantile, on_stream; simpl.
  now rewrite two_cells.
Qed.

Lemma row_cquantile_spec :
  row_spec row_cquantile calls_cquantile line_cquantile.
Proof.
  intros x log o Ho. unfold row_cquantile, eval_quantile, on_stream; simpl.
  now rewrite two_cells.
Qed.

Lemma row_cdf_spec : row_spec row_cdf calls_cdf line_cdf.
Proof.
  intros x log o Ho. unfold row_cdf, eval_cdf, on_stream; simpl.
  rewrite <- app_assoc. simpl. f_equal. unfold endl.
  rewrite (put_double_ready x o Ho), put_string_twice.
  rewrite put_double_ready by (apply ready_put_string; exact Ho).
  rewrite !put_string_twice.
  rewrite put_double_ready by (apply ready_put_string; exact Ho).
  rewrite !put_string_twice. f_equal. unfold line_cdf.
  now rewrite !string_app_assoc.
Qed.

Lemma fold_rows row cs line :
  row_spec row cs line ->
  forall xs log o, ready o ->
  fold_left (fun s x => row x s) xs (log, o)
  = (log ++ flat_map cs xs, put_string (rows_text line xs) o).
Proof.
  intros Hrow. induction xs as [|x xs IH]; intros log o Ho; simpl.
  - now rewrite app_nil_r, put_string_nil.
  - rewrite (Hrow x log o Ho), IH by (apply ready_put_string; exact Ho).
    now rewrite put_string_twice, <- app_assoc.
Qed.

Lemma close_begin path header w row cs line xs :
  row_spec row cs line ->
  close w (fold_left (fun s x => row x s) xs (begin_file path header w))
  = swept path header cs line xs w.
Proof.
  intros Hrow. unfold begin_file.
  rewrite (fold_rows row cs line Hrow) by (split; reflexivity).
  unfold close, swept; simpl. now rewrite string_app_assoc.
Qed.

(** A one-level sweep whose loop variable takes the values [xs]. *)
Lemma single_sweep_returns path header w row cs line cond next x0 n xs :
  row_spec row cs line ->
  loop_values n cond next x0 = Some xs ->
  returns (fun fuel =>
             option_map (close w)
               (for_loop fuel cond next (pure_body row) x0
                  (begin_file path header w)))
          (swept path header cs line xs w).
Proof.
  intros Hrow E. exists n. intros fuel Hf.
  rewrite (loop_values_fold _ _ _ fuel x0 xs)
    by (now apply (loop_values_mono _ _ _ n)).
  unfold pure_body. rewrite foldM_pure. simpl.
  now rewrite (close_begin _ _ _ _ cs line).
Qed.

(** A two-level sweep whose inner variable takes the values [xs]. *)
Lemma nest_sweep_returns path header w row cs line
    cond next icond inext x0 n xs :
  row_spec row cs line ->
  nest_values n cond next icond inext x0 = Some xs ->
  returns (fun fuel =>
             option_map (close w)
               (nest fuel cond next icond inext (pure_body row) x0
                  (begin_file path header w)))
          (swept path header cs line xs w).
Proof.
  intros Hrow E. exists n. intros fuel Hf.
  rewrite (nest_values_fold _ _ _ _ _ fuel x0 xs)
    by (now apply (nest_values_mono _ _ _ _ _ n)).
  unfold pure_body. rewrite foldM_pure. simpl.
  now rewrite (close_begin _ _ _ _ cs line).
Qed.

End SweepFacts.

(** ** The loops, evaluated *)

Lemma checked_Some (o : option (list double)) (p : list double -> bool) :
  checked o p = true -> exists l, o = Some l /\ p l = true.
Proof.
  destruct o as [l|]; simpl; [|discriminate]. intros E. now exists l.
Qed.

(** Splits a conjunction of boolean checks into its parts. *)
Ltac split_checks E :=
  repeat match type of E with
         | (_ && _ = true) =>
             let E' := fresh "Hcheck" in
             apply andb_true_iff in E; destruct E as [E E']
         end.

Lemma lengthZ_eqb {A : Type} (l : list A) (n : Z) :
  (lengthZ l =? n) = true -> Z.of_nat (length l) = n.
Proof.
  intros E. apply Z.eqb_eq in E. rewrite <- lengthZ_length. exact E.
Qed.

(** Each check below is evaluated on the loop with its invariant operands
    ([1. / 1024], [x0 * 2], [ldexp(1, 64)], ...) bound once, which is the
    same loop up to unfolding. *)

Lemma central_check :
  checked (loop_values central_fuel central_cond central_next central_init)
    central_ok = true.
Proof.
  change (checked
            (let hi := of_int 64 in
             let step := div (of_int 1) (of_int 1024) in
             loop_values central_fuel (fun x => leb x hi)
               (fun x => add x step) central_init)
            central_ok = true).
  vm_cast_no_check (@eq_refl bool true).
Qed.

Lemma octave_check :
  checked (loop_values tail_fuel octave_cond octave_next octave_init)
    octave_ok = true.
Proof. vm_cast_no_check (@eq_refl bool true). Qed.

Lemma tail_check :
  checked (nest_values tail_fuel octave_cond octave_next
             within_cond within_next octave_init)
    tail_ok = true.
Proof.
  change (checked
            (let top := ldexp (of_int 1) 64 in
             let two := of_int 2 in
             let n := of_int 256 in
             nest_values tail_fuel (fun x0 => leb x0 top)
               (fun x0 => mul x0 two)
               (fun x0 => let hi := mul x0 two in fun x => ltb x hi)
               (fun x0 => let step := div x0 n in fun x => add x step)
               octave_init)
            tail_ok = true).
  vm_cast_no_check (@eq_refl bool true).
Qed.

Lemma prob_check :
  checked (loop_values prob_fuel prob_cond prob_next prob_init)
    prob_ok = true.
Proof.
  change (checked
            (let hi := of_int 1 in
             let step := div (of_int 1) (of_int 8192) in
             loop_values prob_fuel (fun x => ltb x hi)
               (fun x => add x step) prob_init)
            prob_ok = true).
  vm_cast_no_check (@eq_refl bool true).
Qed.

Lemma lower_check :
  checked (loop_values lower_fuel lower_cond lower_next prob_init)
    lower_ok = true.
Proof.
  change (checked
            (let lo := ldexp (of_int 1) (-1000) in
             let two := of_int 2 in
             loop_values lower_fuel (fun x => gtb x lo)
               (fun x => div x two) prob_init)
            lower_ok = true).
  vm_cast_no_check (@eq_refl bool true).
Qed.

Lemma upper_check :
  checked (nest_values upper_fuel upper_cond upper_next
             down_cond down_next prob_init)
    upper_ok = true.
Proof.
  change (checked
            (let bottom := ldexp (of_int 1) (-128) in
             let two := of_int 2 in
             let n := of_int 256 in
             nest_values upper_fuel (fun x0 => gtb x0 bottom)
               (fun x0 => div x0 two)
               (fun x0 => let lo := div x0 two in fun x => gtb x lo)
               (fun x0 => let step := div x0 n in fun x => sub x step)
               prob_init)
            upper_ok = true).
  vm_cast_no_check (@eq_refl bool true).
Qed.

Lemma central_sweep :
  exists xs,
    loop_values central_fuel central_cond central_next central_init = Some xs
    /\ central_props xs.
Proof.
  destruct (checked_Some _ _ central_check) as (xs & E & Hok).
  exists xs. split; [exact E|]. clear E.
  unfold central_ok in Hok. split_checks Hok.
  split; [exact (lengthZ_eqb _ _ Hok)|].
  split; [exact (on_grid_nth central_grid xs 0 Hcheck0)|].
  exact (chain_Sorted ltb xs Hcheck).
Qed.

Lemma octave_sweep :
  exists xs,
    loop_values tail_fuel octave_cond octave_next octave_init = Some xs
    /\ octave_props xs.
Proof.
  destruct (checked_Some _ _ octave_check) as (xs & E & Hok).
  exists xs. split; [exact E|]. clear E.
  unfold octave_ok in Hok. split_checks Hok.
  split; [exact (lengthZ_eqb _ _ Hok)|].
  exact (on_grid_nth octave_grid xs 0 Hcheck).
Qed.

Lemma tail_sweep :
  exists xs,
    nest_values tail_fuel octave_cond octave_next within_cond within_next
      octave_init = Some xs
    /\ tail_props xs.
Proof.
  destruct (checked_Some _ _ tail_check) as (xs & E & Hok).
  exists xs. split; [exact E|]. clear E.
  unfold tail_ok in Hok. split_checks Hok.
  split; [exact (lengthZ_eqb _ _ Hok)|].
  split; [exact (on_grid_nth tail_grid xs 0 Hcheck1)|].
  split; [exact (chain_Sorted ltb xs Hcheck0)|].
  exact (forallb_Forall _ _ xs (from_belowb_sound _ _) Hcheck).
Qed.

Lemma prob_sweep :
  exists xs,
    loop_values prob_fuel prob_cond prob_next prob_init = Some xs
    /\ prob_props xs.
Proof.
  destruct (checked_Some _ _ prob_check) as (xs & E & Hok).
  exists xs. split; [exact E|]. clear E.
  unfold prob_ok in Hok. split_checks Hok.
  split; [exact (lengthZ_eqb _ _ Hok)|].
  split; [exact (on_grid_nth prob_grid xs 0 Hcheck1)|].
  split; [exact (chain_Sorted ltb xs Hcheck0)|].
  exact (forallb_Forall _ _ xs (strictly_betweenb_sound _ _) Hcheck).
Qed.

Lemma lower_sweep :
  exists xs,
    loop_values lower_fuel lower_cond lower_next prob_init = Some xs
    /\ lower_props xs.
Proof.
  destruct (checked_Some _ _ lower_check) as (xs & E & Hok).
  exists xs. split; [exact E|]. clear E.
  unfold lower_ok in Hok. split_checks Hok.
  split; [exact (lengthZ_eqb _ _ Hok)|].
  split; [exact (on_grid_nth halving_grid xs 0 Hcheck1)|].
  split; [exact (chain_Sorted gtb xs Hcheck0)|].
  exact (forallb_Forall _ _ xs (strictly_betweenb_sound _ _) Hcheck).
Qed.

Lemma upper_sweep :
  exists xs,
    nest_values upper_fuel upper_cond upper_next down_cond down_next
      prob_init = Some xs
    /\ upper_props xs.
Proof.
  destruct (checked_Some _ _ upper_check) as (xs & E & Hok).
  exists xs. split; [exact E|]. clear E.
  unfold upper_ok in Hok. split_checks Hok.
  split; [exact (lengthZ_eqb _ _ Hok)|].
  split; [exact (on_grid_nth upper_grid xs 0 Hcheck1)|].
  split; [exact (chain_Sorted gtb xs Hcheck0)|].
  exact (forallb_Forall _ _ xs (strictly_betweenb_sound _ _) Hcheck).
Qed.

(** ** The plot functions, characterised *)

Lemma returns_and_then (f g : world -> nat -> option world) (w w1 w2 : world) :
  returns (f w) w1 -> returns (g w1) w2 -> returns (and_then f g w) w2.
Proof.
  intros [n1 H1] [n2 H2]. exists (Nat.max n1 n2). intros fuel Hf.
  unfold and_then. rewrite H1 by lia. apply H2. lia.
Qed.

Section Outcomes.

Context `{Engine} `{Printer}.

Variables xc xt xp xl xu : list double.
Hypothesis Hxc :
  loop_values central_fuel central_cond central_next central_init
  = Some xc.
Hypothesis Hxt :
  nest_values tail_fuel octave_cond octave_next within_cond within_next
    octave_init = Some xt.
Hypothesis Hxp :
  loop_values prob_fuel prob_cond prob_next prob_init = Some xp.
Hypothesis Hxl :
  loop_values lower_fuel lower_cond lower_next prob_init = Some xl.
Hypothesis Hxu :
  nest_values upper_fuel upper_cond upper_next down_cond down_next
    prob_init = Some xu.

Lemma plot_pdf_returns path w :
  returns (plot_pdf path w) (swept path "x,pdf" calls_pdf line_pdf xc w).
Proof. exact (single_sweep_returns _ _ _ _ _ _ _ _ _ _ _ row_pdf_spec Hxc). Qed.

Lemma plot_pdf_limit_returns path w :
  returns (plot_pdf_limit path w)
          (swept path "x,pdf" calls_pdf line_pdf xt w).
Proof.
  exact (nest_sweep_returns _ _ _ _ _ _ _ _ _ _ _ _ _ row_pdf_spec Hxt).
Qed.

Lemma plot_cdf_returns path w :
  returns (plot_cdf path w)
          (swept path "x,cdf,ccdf" calls_cdf line_cdf xc w).
Proof. exact (single_sweep_returns _ _ _ _ _ _ _ _ _ _ _ row_cdf_spec Hxc). Qed.

Lemma plot_cdf_limit_returns path w :
  returns (plot_cdf_limit path w)
          (swept path "x,ccdf" calls_ccdf line_ccdf xt w).
Proof.
  exact (nest_sweep_returns _ _ _ _ _ _ _ _ _ _ _ _ _ row_ccdf_spec Hxt).
Qed.

Lemma plot_quantile_returns path w :
  returns (plot_quantile path w)
          (swept path "x,quantile" calls_quantile line_quantile xp w).
Proof.
  exact (single_sweep_returns _ _ _ _ _ _ _ _ _ _ _ row_quantile_spec Hxp).
Qed.

Lemma plot_quantilelower_limit_returns path w :
  returns (plot_quantilelower_limit path w)
          (swept path "x,quantile" calls_quantile line_quantile xl w).
Proof.
  exact (single_sweep_returns _ _ _ _ _ _ _ _ _ _ _ row_quantile_spec Hxl).
Qed.

Lemma plot_quantileupper_limit_returns path w :
  returns (plot_quantileupper_limit path w)
          (swept path "x,cquantile" calls_cquantile line_cquantile xu w).
Proof.
  exact (nest_sweep_returns _ _ _ _ _ _ _ _ _ _ _ _ _
           row_cquantile_spec Hxu).
Qed.

Lemma main_returns w : returns (main w) (main_end xc xt xp xl xu w).
Proof.
  unfold main, main_end.
  eapply returns_and_then; [apply plot_pdf_returns|].
  eapply returns_and_then; [apply plot_pdf_limit_returns|].
  eapply returns_and_then; [apply plot_cdf_returns|].
  eapply returns_and_then; [apply plot_cdf_limit_returns|].
  eapply returns_and_then; [apply plot_quantile_returns|].
  eapply returns_and_then; [apply plot_quantilelower_limit_returns|].
  eapply returns_and_then; [apply plot_quantileupper_limit_returns|].
  exists O. intros fuel _. reflexivity.
Qed.

End Outcomes.

(** * Properties of the sweeps *)

(** ** Reading the grids *)

Lemma grid_at (g : Z -> Q) (xs : list double) (n : Z) :
  Z.of_nat (length xs) = n ->
  (forall i x, nth_error xs i = Some x -> has_value x (g (Z.of_nat i))) ->
  forall k, 0 <= k < n ->
  exists x, nth_error xs (Z.to_nat k) = Some x /\ has_value x (g k).
Proof.
  intros Hn Hg k Hk.
  destruct (nth_error_below xs k n Hn Hk) as [x Hx].
  exists x. split; [exact Hx|].
  apply Hg in Hx. now rewrite Z2Nat.id in Hx by lia.
Qed.

Lemma length_flat_map_const {A B : Type} (f : A -> list B) (k : nat)
    (l : list A) :
  (forall a, length (f a) = k) ->
  Z.of_nat (length (flat_map f l)) = Z.of_nat k * Z.of_nat (length l).
Proof.
  intros Hf. induction l as [|a l IH]; simpl; [lia|].
  rewrite length_app, Hf. lia.
Qed.

Lemma calls_swept path header cs line xs w :
  calls (swept path header cs line xs w) = calls w ++ flat_map cs xs.
Proof. reflexivity. Qed.

Lemma swept_count path header cs line xs w (k : nat) :
  (forall x, length (cs x) = k) ->
  Z.of_nat (length (calls (swept path header cs line xs w)))
  = Z.of_nat (length (calls w)) + Z.of_nat k * Z.of_nat (length xs).
Proof.
  intros Hk. rewrite calls_swept, length_app, Nat2Z.inj_add.
  now rewrite (length_flat_map_const cs k).
Qed.

(** C7: the central sweeps of [plot_pdf] and [plot_cdf] evaluate the engine
    at exactly the 71681 grid points [-6 + k * 2^-10], [k = 0 .. 71680];
    the accumulated double is exact at every step, and both endpoints [-6]
    and [64] are visited. *)
Theorem central_sweeps_cover_grid `{Engine} `{Printer}
    (path : string) (w : world) :
  exists xs : list double,
    returns (plot_pdf path w) (swept path "x,pdf" calls_pdf line_pdf xs w)
    /\ returns (plot_cdf path w)
               (swept path "x,cdf,ccdf" calls_cdf line_cdf xs w)
    /\ Z.of_nat (length xs) = 71681
    /\ (forall k, 0 <= k <= 71680 ->
        exists x, nth_error xs (Z.to_nat k) = Some x
                  /\ has_value x (-6 + inject_Z k * two_power (-10))%Q)
    /\ (exists a, nth_error xs 0 = Some a /\ has_value a (-6)%Q)
    /\ (exists b, nth_error xs (Z.to_nat 71680) = Some b
                  /\ has_value b 64%Q).
Proof.
  destruct central_sweep as (xs & E & Hlen & Hgrid & _).
  exists xs.
  split; [exact (plot_pdf_returns xs E path w)|].
  split; [exact (plot_cdf_returns xs E path w)|].
  split; [exact Hlen|].
  pose proof (grid_at central_grid xs 71681 Hlen Hgrid) as G.
  split; [intros k Hk; apply G; lia|].
  split.
  - destruct (G 0) as (a & Ha & Va); [lia|].
    exists a. split; [exact Ha|].
    revert Va. apply has_value_eq. reflexivity.
  - destruct (G 71680) as (b & Hb & Vb); [lia|].
    exists b. split; [exact Hb|].
    revert Vb. apply has_value_eq. reflexivity.
Qed.

Lemma calls_main_end `{Engine} `{Printer} xc xt xp xl xu w :
  calls (main_end xc xt xp xl xu w)
  = calls w ++ flat_map calls_pdf xc ++ flat_map calls_pdf xt
      ++ flat_map calls_cdf xc ++ flat_map calls_ccdf xt
      ++ flat_map calls_quantile xp ++ flat_map calls_quantile xl
      ++ flat_map calls_cquantile xu.
Proof.
  unfold main_end, print_end, swept; cbn [calls].
  now rewrite <- !app_assoc.
Qed.

(** C10: every sweep returns after a fixed number of engine calls, 71681
    for [plot_pdf], 8191 for [plot_quantile], 987 for
    [plot_quantilelower_limit], and [main] runs to completion, writing its
    seven files and the final console line. *)
Theorem sweeps_terminate `{Engine} `{Printer} (path : string) (w : world) :
  (exists w', returns (plot_pdf path w) w' /\ calls_since w w' = 71681)
  /\ (exists w', returns (plot_pdf_limit path w) w'
                 /\ calls_since w w' = 15104)
  /\ (exists w', returns (plot_cdf path w) w' /\ calls_since w w' = 143362)
  /\ (exists w', returns (plot_cdf_limit path w) w'
                 /\ calls_since w w' = 15104)
  /\ (exists w', returns (plot_quantile path w) w'
                 /\ calls_since w w' = 8191)
  /\ (exists w', returns (plot_quantilelower_limit path w) w'
                 /\ calls_since w w' = 987)
  /\ (exists w', returns (plot_quantileupper_limit path w) w'
                 /\ calls_since w w' = 14720)
  /\ (exists w', returns (main w) w'
                 /\ calls_since w w' = 269149
                 /\ Z.of_nat (length (files w'))
                    = Z.of_nat (length (files w)) + 7
                 /\ console w' = (console w ++ "END" ++ newline)%string).
Proof.
  destruct central_sweep as (xc & Ec & Lc & _).
  destruct tail_sweep as (xt & Et & Lt & _).
  destruct prob_sweep as (xp & Ep & Lp & _).
  destruct lower_sweep as (xl & El & Ll & _).
  destruct upper_sweep as (xu & Eu & Lu & _).
  unfold calls_since.
  split; [|split; [|split; [|split; [|split; [|split; [|split]]]]]].
  - eexists. split; [exact (plot_pdf_returns xc Ec path w)|].
    rewrite (swept_count _ _ _ _ _ _ 1) by reflexivity. lia.
  - eexists. split; [exact (plot_pdf_limit_returns xt Et path w)|].
    rewrite (swept_count _ _ _ _ _ _ 1) by reflexivity. lia.
  - eexists. split; [exact (plot_cdf_returns xc Ec path w)|].
    rewrite (swept_count _ _ _ _ _ _ 2) by reflexivity. lia.
  - eexists. split; [exact (plot_cdf_limit_returns xt Et path w)|].
    rewrite (swept_count _ _ _ _ _ _ 1) by reflexivity. lia.
  - eexists. split; [exact (plot_quantile_returns xp Ep path w)|].
    rewrite (swept_count _ _ _ _ _ _ 1) by reflexivity. lia.
  - eexists. split; [exact (plot_quantilelower_limit_returns xl El path w)|].
    rewrite (swept_count _ _ _ _ _ _ 1) by reflexivity. lia.
  - eexists. split; [exact (plot_quantileupper_limit_returns xu Eu path w)|].
    rewrite (swept_count _ _ _ _ _ _ 1) by reflexivity. lia.
  - exists (main_end xc xt xp xl xu w).
    split; [exact (main_returns xc xt xp xl xu Ec Et Ep El Eu w)|].
    split; [|split].
    + rewrite calls_main_end, !length_app, !Nat2Z.inj_add.
      rewrite !(length_flat_map_const calls_pdf 1) by reflexivity.
      rewrite (length_flat_map_const calls_cdf 2) by reflexivity.
      rewrite (length_flat_map_const calls_ccdf 1) by reflexivity.
      rewrite !(length_flat_map_const calls_quantile 1) by reflexivity.
      rewrite (length_flat_map_const calls_cquantile 1) by reflexivity.
      lia.
    + unfold main_end, print_end, swept; cbn [files].
      rewrite !length_app; cbn [length]. lia.
    + reflexivity.
Qed.

(** ** Which calls a sweep makes *)

Lemma in_calls_quantile p c xs :
  In (CallQuantile p c) (flat_map calls_quantile xs) -> In p xs.
Proof.
  intros Hin. apply in_flat_map in Hin. destruct Hin as (x & Hx & [E|[]]).
  now injection E as <- _.
Qed.

Lemma in_calls_cquantile p c xs :
  In (CallQuantile p c) (flat_map calls_cquantile xs) -> In p xs.
Proof.
  intros Hin. apply in_flat_map in Hin. destruct Hin as (x & Hx & [E|[]]).
  now injection E as <- _.
Qed.

Lemma not_in_calls_pdf p c xs :
  ~ In (CallQuantile p c) (flat_map calls_pdf xs).
Proof.
  intros Hin. apply in_flat_map in Hin.
  destruct Hin as (x & _ & [E|[]]). discriminate.
Qed.

Lemma not_in_calls_cdf p c xs :
  ~ In (CallQuantile p c) (flat_map calls_cdf xs).
Proof.
  intros Hin. apply in_flat_map in Hin.
  destruct Hin as (x & _ & [E|[E|[]]]); discriminate.
Qed.

Lemma not_in_calls_ccdf p c xs :
  ~ In (CallQuantile p c) (flat_map calls_ccdf xs).
Proof.
  intros Hin. apply in_flat_map in Hin.
  destruct Hin as (x & _ & [E|[]]). discriminate.
Qed.

Lemma in_domain (p : double) :
  strictly_between 0 1 p ->
  strictly_between 0 1 p /\ quantile_domain_error p = false.
Proof.
  intros Hp. split; [exact Hp|].
  unfold quantile_domain_error.
  now rewrite (strictly_between_complete 0 1 p Hp).
Qed.

Lemma two_power_pos (k : Z) : (0 < two_power k)%Q.
Proof.
  destruct k as [|p|p]; unfold two_power, Qlt; cbn [Qnum Qden inject_Z].
  - reflexivity.
  - assert (0 < 2 ^ Zpos p) by (apply Z.pow_pos_nonneg; lia). lia.
  - reflexivity.
Qed.

(** C9: every probability [main] passes to [mapairy_quantile] lies strictly
    between 0 and 1, so the quantile function's domain error cannot occur;
    the probabilities of [plot_quantile] are exactly [k * 2^-13],
    [k = 1 .. 8191]. *)
Theorem quantile_probabilities_in_domain `{Engine} `{Printer} :
  (exists w', returns (main init_world) w'
     /\ forall p c, In (CallQuantile p c) (calls w') ->
          strictly_between 0 1 p /\ quantile_domain_error p = false)
  /\ (forall path w, exists ps,
        returns (plot_quantile path w)
                (swept path "x,quantile" calls_quantile line_quantile ps w)
        /\ Z.of_nat (length ps) = 8191
        /\ (forall k, 1 <= k <= 8191 ->
            exists p, nth_error ps (Z.to_nat (k - 1)) = Some p
                      /\ has_value p (inject_Z k * two_power (-13))%Q)
        /\ Forall (strictly_between 0 1) ps).
Proof.
  destruct central_sweep as (xc & Ec & _).
  destruct tail_sweep as (xt & Et & _).
  destruct prob_sweep as (xp & Ep & Lp & Gp & _ & Rp).
  destruct lower_sweep as (xl & El & _ & _ & _ & Rl).
  destruct upper_sweep as (xu & Eu & _ & _ & _ & Ru).
  split.
  - exists (main_end xc xt xp xl xu init_world).
    split; [exact (main_returns xc xt xp xl xu Ec Et Ep El Eu init_world)|].
    intros p c Hin. apply in_domain.
    rewrite calls_main_end in Hin. cbn [calls init_world app] in Hin.
    repeat (apply in_app_or in Hin; destruct Hin as [Hin|Hin]).
    + now apply not_in_calls_pdf in Hin.
    + now apply not_in_calls_pdf in Hin.
    + now apply not_in_calls_cdf in Hin.
    + now apply not_in_calls_ccdf in Hin.
    + apply in_calls_quantile in Hin.
      exact (proj1 (Forall_forall _ _) Rp p Hin).
    + apply in_calls_quantile in Hin.
      apply (strictly_between_weaken (two_power (-1000))).
      * apply Qlt_le_weak, two_power_pos.
      * exact (proj1 (Forall_forall _ _) Rl p Hin).
    + apply in_calls_cquantile in Hin.
      apply (strictly_between_weaken (two_power (-128))).
      * apply Qlt_le_weak, two_power_pos.
      * exact (proj1 (Forall_forall _ _) Ru p Hin).
  - intros path w. exists xp.
    split; [exact (plot_quantile_returns xp Ep path w)|].
    split; [exact Lp|].
    split; [|exact Rp].
    intros k Hk.
    destruct (grid_at prob_grid xp 8191 Lp Gp (k - 1)) as (p & Hp & Vp);
      [lia|].
    exists p. split; [exact Hp|].
    unfold prob_grid in Vp. now replace (k - 1 + 1) with k in Vp by lia.
Qed.

(** C8: each plot function writes its header row, then one row per swept
    input holding the input and the engine output(s), comma-separated, in
    scientific notation with precision 16.  The swept inputs are the values
    the loop variable takes ([xc] in the central loop, [xt] in the octave
    nest, [xp], [xl] and [xu] in the three quantile loops: 71681, 15104,
    8191, 987 and 14720 of them); within a file they are strictly
    increasing in the [x] sweeps and in [plot_quantile], strictly
    decreasing in the two limit quantile sweeps. *)
Theorem csv_files_layout `{Engine} `{Printer} (path : string) (w : world) :
  exists xc xt xp xl xu : list double,
    returns (fun fuel => loop_values fuel central_cond central_next
                           central_init) xc
    /\ returns (fun fuel => nest_values fuel octave_cond octave_next
                              within_cond within_next octave_init) xt
    /\ returns (fun fuel => loop_values fuel prob_cond prob_next
                              prob_init) xp
    /\ returns (fun fuel => loop_values fuel lower_cond lower_next
                              prob_init) xl
    /\ returns (fun fuel => nest_values fuel upper_cond upper_next
                              down_cond down_next prob_init) xu
    /\ Z.of_nat (length xc) = 71681 /\ Z.of_nat (length xt) = 15104
    /\ Z.of_nat (length xp) = 8191 /\ Z.of_nat (length xl) = 987
    /\ Z.of_nat (length xu) = 14720
    /\ Sorted lt xc /\ Sorted lt xt /\ Sorted lt xp
    /\ Sorted gt xl /\ Sorted gt xu
    /\ returns (plot_pdf path w)
               (swept path "x,pdf" calls_pdf line_pdf xc w)
    /\ returns (plot_pdf_limit path w)
               (swept path "x,pdf" calls_pdf line_pdf xt w)
    /\ returns (plot_cdf path w)
               (swept path "x,cdf,ccdf" calls_cdf line_cdf xc w)
    /\ returns (plot_cdf_limit path w)
               (swept path "x,ccdf" calls_ccdf line_ccdf xt w)
    /\ returns (plot_quantile path w)
               (swept path "x,quantile" calls_quantile line_quantile xp w)
    /\ returns (plot_quantilelower_limit path w)
               (swept path "x,quantile" calls_quantile line_quantile xl w)
    /\ returns (plot_quantileupper_limit path w)
               (swept path "x,cquantile" calls_cquantile line_cquantile
                  xu w).
Proof.
  destruct central_sweep as (xc & Ec & Lc & _ & Sc).
  destruct tail_sweep as (xt & Et & Lt & _ & St & _).
  destruct prob_sweep as (xp & Ep & Lp & _ & Sp & _).
  destruct lower_sweep as (xl & El & Ll & _ & Sl & _).
  destruct upper_sweep as (xu & Eu & Lu & _ & Su & _).
  exists xc, xt, xp, xl, xu.
  split; [exact (returns_loop_values _ _ _ _ _ Ec)|].
  split; [exact (returns_nest_values _ _ _ _ _ _ _ Et)|].
  split; [exact (returns_loop_values _ _ _ _ _ Ep)|].
  split; [exact (returns_loop_values _ _ _ _ _ El)|].
  split; [exact (returns_nest_values _ _ _ _ _ _ _ Eu)|].
  split; [exact Lc|]. split; [exact Lt|]. split; [exact Lp|].
  split; [exact Ll|]. split; [exact Lu|].
  split; [exact Sc|]. split; [exact St|]. split; [exact Sp|].
  split; [exact Sl|]. split; [exact Su|].
  split; [exact (plot_pdf_returns xc Ec path w)|].
  split; [exact (plot_pdf_limit_returns xt Et path w)|].
  split; [exact (plot_cdf_returns xc Ec path w)|].
  split; [exact (plot_cdf_limit_returns xt Et path w)|].
  split; [exact (plot_quantile_returns xp Ep path w)|].
  split; [exact (plot_quantilelower_limit_returns xl El path w)|].
  exact (plot_quantileupper_limit_returns xu Eu path w).
Qed.

(** ** Indices inside an octave *)

Lemma octave_index (n o j : Z) :
  0 < n -> 0 <= j < n -> (n * o + j) / n = o /\ (n * o + j) mod n = j.
Proof.
  intros Hn Hj. split.
  - symmetry. apply (Z.div_unique_pos _ _ _ j); lia.
  - symmetry. apply (Z.mod_unique_pos _ _ o); lia.
Qed.

(** The quantile limit sweeps stop above their bounds: the statement C1
    makes, that each sweep reaches its bound, fails for every engine. *)
Lemma quantile_limit_bounds_not_reached :
  (~ exists (E : Engine) (P : Printer) (w' : world) (p : double) (c : bool),
       returns (plot_quantilelower_limit
                  "../results/mapairy_quantilelower_limit_cpp.csv"
                  init_world) w'
       /\ In (CallQuantile p c) (calls w')
       /\ has_value p (two_power (-1000)))
  /\ (~ exists (E : Engine) (P : Printer) (w' : world) (q : double)
               (c : bool),
       returns (plot_quantileupper_limit
                  "../results/mapairy_quantileupper_limit_cpp.csv"
                  init_world) w'
       /\ In (CallQuantile q c) (calls w')
       /\ has_value q (two_power (-128))).
Proof.
  split.
  - intros (E & P & w' & p & c & Hret & Hin & Hv).
    destruct lower_sweep as (xl & El & _ & _ & _ & Rl).
    rewrite (returns_unique _ _ _ Hret
               (plot_quantilelower_limit_returns xl El _ init_world)) in Hin.
    rewrite calls_swept in Hin. cbn [calls init_world app] in Hin.
    apply in_calls_quantile in Hin.
    exact (strictly_between_not_value _ _ _
             (proj1 (Forall_forall _ _) Rl p Hin) Hv).
  - intros (E & P & w' & q & c & Hret & Hin & Hv).
    destruct upper_sweep as (xu & Eu & _ & _ & _ & Ru).
    rewrite (returns_unique _ _ _ Hret
               (plot_quantileupper_limit_returns xu Eu _ init_world)) in Hin.
    rewrite calls_swept in Hin. cbn [calls init_world app] in Hin.
    apply in_calls_cquantile in Hin.
    exact (strictly_between_not_value _ _ _
             (proj1 (Forall_forall _ _) Ru q Hin) Hv).
Qed.

(** C1, amended: the lower-tail sweep calls [mapairy_quantile(p)] exactly
    for [p = 2^-k], [k = 13 .. 999], and the upper-tail sweep calls
    [mapairy_quantile(q, true)] exactly for
    [q = 2^-(13 + o) * (1 - j / 256)], [o = 0 .. 114], [j = 0 .. 127], the
    smallest being [129 * 2^-135]; every such probability is strictly
    above the loop bound, [2^-1000] and [2^-128] respectively. *)
Theorem quantile_limit_sweeps_stop_above_bounds `{Engine} `{Printer}
    (path : string) (w : world) :
  (exists ps,
     returns (plot_quantilelower_limit path w)
             (swept path "x,quantile" calls_quantile line_quantile ps w)
     /\ Z.of_nat (length ps) = 987
     /\ (forall k, 13 <= k <= 999 ->
         exists p, nth_error ps (Z.to_nat (k - 13)) = Some p
                   /\ has_value p (two_power (- k)))
     /\ Forall (strictly_between (two_power (-1000)) 1) ps)
  /\ (exists qs,
        returns (plot_quantileupper_limit path w)
                (swept path "x,cquantile" calls_cquantile line_cquantile
                   qs w)
        /\ Z.of_nat (length qs) = 14720
        /\ (forall o j, 0 <= o <= 114 -> 0 <= j <= 127 ->
            exists q, nth_error qs (Z.to_nat (128 * o + j)) = Some q
                      /\ has_value q
                           (two_power (- 13 - o)
                            * (1 - inject_Z j * two_power (-8)))%Q)
        /\ (exists q, nth_error qs (Z.to_nat 14719) = Some q
                      /\ has_value q (129 * two_power (-135))%Q)
        /\ Forall (strictly_between (two_power (-128)) 1) qs).
Proof.
  split.
  - destruct lower_sweep as (xl & El & Ll & Gl & _ & Rl).
    exists xl.
    split; [exact (plot_quantilelower_limit_returns xl El path w)|].
    split; [exact Ll|]. split; [|exact Rl].
    intros k Hk.
    destruct (grid_at halving_grid xl 987 Ll Gl (k - 13)) as (p & Hp & Vp);
      [lia|].
    exists p. split; [exact Hp|].
    unfold halving_grid in Vp.
    now replace (- 13 - (k - 13)) with (- k) in Vp by lia.
  - destruct upper_sweep as (xu & Eu & Lu & Gu & _ & Ru).
    exists xu.
    split; [exact (plot_quantileupper_limit_returns xu Eu path w)|].
    split; [exact Lu|].
    pose proof (grid_at upper_grid xu 14720 Lu Gu) as G.
    split; [|split; [|exact Ru]].
    + intros o j Ho Hj.
      destruct (G (128 * o + j)) as (q & Hq & Vq); [lia|].
      exists q. split; [exact Hq|].
      unfold upper_grid in Vq.
      destruct (octave_index 128 o j) as [-> ->] in Vq; [lia|lia|].
      exact Vq.
    + destruct (G 14719) as (q & Hq & Vq); [lia|].
      exists q. split; [exact Hq|].
      revert Vq. apply has_value_eq. reflexivity.
Qed.

(** The tail sweeps pass arguments beyond [2^64]: the bound C6 states for
    every argument fails in the octave that starts at [2^64]. *)
Lemma tail_sweep_passes_beyond_2_pow_64 :
  ~ (forall (E : Engine) (P : Printer) (w' : world),
       returns (plot_pdf_limit "../results/mapairy_pdf_limit_cpp.csv"
                  init_world) w' ->
       forall c, In c (calls w') ->
       exists v, value (call_arg c) = Some v
                 /\ (64 <= v)%Q /\ (v <= two_power 64)%Q).
Proof.
  intros C.
  pose (E := Build_Engine (fun x => x) (fun x _ => x) (fun x _ => x)).
  pose (P := Build_Printer (fun _ _ _ => EmptyString)).
  destruct tail_sweep as (xt & Et & Lt & Gt & _).
  specialize (C E P _ (plot_pdf_limit_returns xt Et _ init_world)).
  destruct (grid_at tail_grid xt 15104 Lt Gt 14849) as (x & Hx & Vx); [lia|].
  apply nth_error_In in Hx.
  destruct (C (CallPdf x)) as (v & Hv & _ & Hle).
  { rewrite calls_swept. cbn [calls init_world app].
    apply in_flat_map. exists x. split; [exact Hx|now left]. }
  cbn [call_arg] in Hv.
  assert (Ev : (v == tail_grid 14849)%Q).
  { apply (has_value_unique x); [|exact Vx]. exists v. split; [exact Hv|].
    reflexivity. }
  rewrite Ev in Hle. vm_compute in Hle. now apply Hle.
Qed.

(** C6, amended: in [plot_pdf_limit] and [plot_cdf_limit] the octave base
    [x0] takes exactly the values [2^6, 2^7, ..., 2^64]; the arguments
    passed to the engine are [2^(6 + o) * (1 + j / 256)], [o = 0 .. 58],
    [j = 0 .. 255], in strictly ascending order; every one of them
    satisfies [64 <= x < 2^65], and the last and largest one, at
    [x0 = 2^64] and [j = 255], is [2^65 - 2^56]. *)
Theorem tail_sweeps_octaves `{Engine} `{Printer}
    (path : string) (w : world) :
  (exists bases,
     returns (fun fuel => loop_values fuel octave_cond octave_next
                            octave_init) bases
     /\ Z.of_nat (length bases) = 59
     /\ forall k, 6 <= k <= 64 ->
        exists x0, nth_error bases (Z.to_nat (k - 6)) = Some x0
                   /\ has_value x0 (two_power k))
  /\ (exists xs,
        returns (plot_pdf_limit path w)
                (swept path "x,pdf" calls_pdf line_pdf xs w)
        /\ returns (plot_cdf_limit path w)
                   (swept path "x,ccdf" calls_ccdf line_ccdf xs w)
        /\ Z.of_nat (length xs) = 15104
        /\ (forall o j, 0 <= o <= 58 -> 0 <= j <= 255 ->
            exists x, nth_error xs (Z.to_nat (256 * o + j)) = Some x
                      /\ has_value x
                           (two_power (6 + o)
                            * (1 + inject_Z j * two_power (-8)))%Q)
        /\ Sorted lt xs
        /\ (exists x, nth_error xs (Z.to_nat 15103) = Some x
                      /\ has_value x (two_power 65 - two_power 56)%Q)
        /\ Forall (from_below 64 (two_power 65)) xs).
Proof.
  split.
  - destruct octave_sweep as (xb & Eb & Lb & Gb).
    exists xb.
    split; [exact (returns_loop_values _ _ _ _ _ Eb)|].
    split; [exact Lb|].
    intros k Hk.
    destruct (grid_at octave_grid xb 59 Lb Gb (k - 6)) as (x0 & Hx & Vx);
      [lia|].
    exists x0. split; [exact Hx|].
    unfold octave_grid in Vx.
    now replace (6 + (k - 6)) with k in Vx by lia.
  - destruct tail_sweep as (xt & Et & Lt & Gt & St & Rt).
    exists xt.
    split; [exact (plot_pdf_limit_returns xt Et path w)|].
    split; [exact (plot_cdf_limit_returns xt Et path w)|].
    split; [exact Lt|].
    split; [|split; [exact St|split; [|exact Rt]]].
    + intros o j Ho Hj.
      destruct (grid_at tail_grid xt 15104 Lt Gt (256 * o + j))
        as (x & Hx & Vx); [lia|].
      exists x. split; [exact Hx|].
      unfold tail_grid in Vx.
      destruct (octave_index 256 o j) as [-> ->] in Vx; [lia|lia|].
      exact Vx.
    + destruct (grid_at tail_grid xt 15104 Lt Gt 15103) as (x & Hx & Vx);
        [lia|].
      exists x. split; [exact Hx|].
      revert Vx. apply has_value_eq. reflexivity.
Qed.

(** * Further properties of the harness *)

(** ** Reading a file back *)

Lemma count_char_app c (a b : string) :
  count_char c (a ++ b) = (count_char c a + count_char c b)%nat.
Proof.
  induction a as [|ch a IH]; simpl; [reflexivity|].
  destruct (Ascii.eqb ch c); simpl; now rewrite IH.
Qed.

Lemma lines_cons (a rest : string) :
  count_char newline_char a = O ->
  lines (a ++ newline ++ rest) = a :: lines rest.
Proof.
  induction a as [|ch a IH]; intros Ha.
  - reflexivity.
  - simpl in Ha. cbn [append lines].
    destruct (Ascii.eqb ch newline_char); [discriminate|].
    now rewrite (IH Ha).
Qed.

Lemma lines_rows (line row : double -> string) (xs : list double) :
  (forall x, line x = (row x ++ newline)%string) ->
  (forall x, count_char newline_char (row x) = O) ->
  lines (rows_text line xs) = map row xs.
Proof.
  intros Hline Hrow. induction xs as [|x xs IH]; [reflexivity|].
  cbn [rows_text map]. rewrite Hline, string_app_assoc.
  rewrite (lines_cons _ _ (Hrow x)). now rewrite IH.
Qed.

Lemma csv_table_rows header k (line row : double -> string) xs n :
  count_char newline_char header = O ->
  fields header = k ->
  (forall x, line x = (row x ++ newline)%string) ->
  (forall x, count_char newline_char (row x) = O) ->
  (forall x, fields (row x) = k) ->
  Z.of_nat (length xs) = n ->
  csv_table header k n (header ++ newline ++ rows_text line xs).
Proof.
  intros Hh Hk Hline Hnl Hf Hn. exists (map row xs).
  split; [|split].
  - rewrite (lines_cons _ _ Hh). f_equal. now apply lines_rows.
  - now rewrite length_map.
  - constructor; [exact Hk|].
    apply Forall_forall. intros l Hl. apply in_map_iff in Hl.
    destruct Hl as (x & <- & _). apply Hf.
Qed.

Section ReadBack.

Context `{Engine} `{Printer}.
Hypothesis Hplain : plain_printer.

Lemma sci16_no_newline x : count_char newline_char (sci16 x) = O.
Proof. exact (proj1 (Hplain ff_scientific 16 x)). Qed.

Lemma sci16_no_comma x : count_char comma_char (sci16 x) = O.
Proof. exact (proj2 (Hplain ff_scientific 16 x)). Qed.

(** Two cells joined by a comma: one line of two fields. *)
Lemma two_fields x y :
  count_char newline_char (sci16 x ++ "," ++ sci16 y) = O
  /\ fields (sci16 x ++ "," ++ sci16 y) = 2%nat.
Proof.
  unfold fields. rewrite !count_char_app, !sci16_no_newline, !sci16_no_comma.
  split; reflexivity.
Qed.

Lemma three_fields x y z :
  count_char newline_char (sci16 x ++ "," ++ sci16 y ++ "," ++ sci16 z) = O
  /\ fields (sci16 x ++ "," ++ sci16 y ++ "," ++ sci16 z) = 3%nat.
Proof.
  unfold fields. rewrite !count_char_app, !sci16_no_newline, !sci16_no_comma.
  split; reflexivity.
Qed.

Lemma table_of_two header (out : double -> double) (line : double -> string)
    xs n :
  count_char newline_char header = O ->
  fields header = 2%nat ->
  (forall x, line x = (sci16 x ++ "," ++ sci16 (out x) ++ newline)%string) ->
  Z.of_nat (length xs) = n ->
  csv_table header 2 n (header ++ newline ++ rows_text line xs).
Proof.
  intros Hh Hk Hline Hn.
  apply (csv_table_rows header 2 line
           (fun x => (sci16 x ++ "," ++ sci16 (out x))%string));
    try assumption.
  - intros x. now rewrite Hline, !string_app_assoc.
  - intros x. apply two_fields.
  - intros x. apply two_fields.
Qed.

Lemma swept_writes run w path header cs line xs k n :
  returns run (swept path header cs line xs w) ->
  csv_table header k n (header ++ newline ++ rows_text line xs) ->
  writes_table run w path header k n.
Proof.
  intros Hret Htab.
  exists (swept path header cs line xs w),
         (header ++ newline ++ rows_text line xs)%string.
  split; [exact Hret|]. split; [reflexivity|exact Htab].
Qed.

End ReadBack.

(** X4: with a printer that renders numbers without newline or comma, every
    file a plot function writes reads back as its header line followed by
    one line per swept input, each line with as many fields as the
    header (three in [plot_cdf], two elsewhere). *)
Theorem csv_files_read_back `{Engine} `{Printer}
    (path : string) (w : world) :
  plain_printer -> tables_written path w.
Proof.
  intros Hplain.
  destruct central_sweep as (xc & Ec & Lc & _).
  destruct tail_sweep as (xt & Et & Lt & _).
  destruct prob_sweep as (xp & Ep & Lp & _).
  destruct lower_sweep as (xl & El & Ll & _).
  destruct upper_sweep as (xu & Eu & Lu & _).
  unfold tables_written.
  split; [|split; [|split; [|split; [|split; [|split]]]]].
  - apply (swept_writes _ _ _ _ _ _ _ _ _ (plot_pdf_returns xc Ec path w)).
    now apply (table_of_two Hplain _ mapairy_pdf).
  - apply (swept_writes _ _ _ _ _ _ _ _ _
             (plot_pdf_limit_returns xt Et path w)).
    now apply (table_of_two Hplain _ mapairy_pdf).
  - apply (swept_writes _ _ _ _ _ _ _ _ _ (plot_cdf_returns xc Ec path w)).
    apply (csv_table_rows _ 3 line_cdf
             (fun x => (sci16 x ++ "," ++ sci16 (mapairy_cdf x false)
                        ++ "," ++ sci16 (mapairy_cdf x true))%string));
      try reflexivity; try exact Lc.
    + intros x. unfold line_cdf. now rewrite !string_app_assoc.
    + intros x. now apply three_fields.
    + intros x. now apply three_fields.
  - apply (swept_writes _ _ _ _ _ _ _ _ _
             (plot_cdf_limit_returns xt Et path w)).
    now apply (table_of_two Hplain _ (fun x => mapairy_cdf x true)).
  - apply (swept_writes _ _ _ _ _ _ _ _ _
             (plot_quantile_returns xp Ep path w)).
    now apply (table_of_two Hplain _ (fun x => mapairy_quantile x false)).
  - apply (swept_writes _ _ _ _ _ _ _ _ _
             (plot_quantilelower_limit_returns xl El path w)).
    now apply (table_of_two Hplain _ (fun x => mapairy_quantile x false)).
  - apply (swept_writes _ _ _ _ _ _ _ _ _
             (plot_quantileupper_limit_returns xu Eu path w)).
    now apply (table_of_two Hplain _ (fun x => mapairy_quantile x true)).
Qed.

Lemma csv_files_read_back_witness :
  @plain_printer sample_printer
  /\ @tables_written sample_engine sample_printer "out.csv" init_world.
Proof.
  split.
  - intros f n x. split; reflexivity.
  - apply (@csv_files_read_back sample_engine sample_printer
             "out.csv" init_world).
    intros f n x. split; reflexivity.
Defined.

(** ** Arguments of the calls *)

Lemma has_value_finite x q : has_value x q -> finite x.
Proof. intros (v & Hv & _). now exists v. Qed.

Lemma grid_finite (g : Z -> Q) (xs : list double) :
  (forall i x, nth_error xs i = Some x -> has_value x (g (Z.of_nat i))) ->
  Forall finite xs.
Proof.
  intros Hg. apply Forall_forall. intros x Hx.
  apply In_nth_error in Hx. destruct Hx as [i Hi].
  exact (has_value_finite _ _ (Hg i x Hi)).
Qed.

Lemma passes_input_pdf : passes_input calls_pdf.
Proof. intros x c [<-|[]]. reflexivity. Qed.

Lemma passes_input_cdf : passes_input calls_cdf.
Proof. intros x c [<-|[<-|[]]]; reflexivity. Qed.

Lemma passes_input_ccdf : passes_input calls_ccdf.
Proof. intros x c [<-|[]]. reflexivity. Qed.

Lemma passes_input_quantile : passes_input calls_quantile.
Proof. intros x c [<-|[]]. reflexivity. Qed.

Lemma passes_input_cquantile : passes_input calls_cquantile.
Proof. intros x c [<-|[]]. reflexivity. Qed.

Lemma flat_map_args (P : double -> Prop) cs xs :
  passes_input cs -> Forall P xs ->
  Forall (fun c => P (call_arg c)) (flat_map cs xs).
Proof.
  intros Hcs Hxs. apply Forall_forall. intros c Hc.
  apply in_flat_map in Hc. destruct Hc as (x & Hx & Hc).
  rewrite (Hcs x c Hc). exact (proj1 (Forall_forall _ _) Hxs x Hx).
Qed.

(** X1: [main] never passes a NaN or an infinity to the engine: every
    argument of every call it makes is a finite double. *)
Theorem engine_arguments_finite `{Engine} `{Printer} :
  exists w', returns (main init_world) w'
    /\ Forall (fun c => finite (call_arg c)) (calls w').
Proof.
  destruct central_sweep as (xc & Ec & _ & Gc & _).
  destruct tail_sweep as (xt & Et & _ & Gt & _).
  destruct prob_sweep as (xp & Ep & _ & Gp & _).
  destruct lower_sweep as (xl & El & _ & Gl & _).
  destruct upper_sweep as (xu & Eu & _ & Gu & _).
  exists (main_end xc xt xp xl xu init_world).
  split; [exact (main_returns xc xt xp xl xu Ec Et Ep El Eu init_world)|].
  rewrite calls_main_end. cbn [calls init_world app].
  pose proof (grid_finite _ _ Gc) as Fc.
  pose proof (grid_finite _ _ Gt) as Ft.
  pose proof (grid_finite _ _ Gp) as Fp.
  pose proof (grid_finite _ _ Gl) as Fl.
  pose proof (grid_finite _ _ Gu) as Fu.
  repeat (apply Forall_app; split).
  - exact (flat_map_args finite _ _ passes_input_pdf Fc).
  - exact (flat_map_args finite _ _ passes_input_pdf Ft).
  - exact (flat_map_args finite _ _ passes_input_cdf Fc).
  - exact (flat_map_args finite _ _ passes_input_ccdf Ft).
  - exact (flat_map_args finite _ _ passes_input_quantile Fp).
  - exact (flat_map_args finite _ _ passes_input_quantile Fl).
  - exact (flat_map_args finite _ _ passes_input_cquantile Fu).
Qed.

Lemma flat_map_shape (P : call -> Prop) (cs : double -> list call) xs :
  (forall x c, In c (cs x) -> P c) -> Forall P (flat_map cs xs).
Proof.
  intros Hcs. apply Forall_forall. intros c Hc.
  apply in_flat_map in Hc. destruct Hc as (x & _ & Hc). exact (Hcs x c Hc).
Qed.

(** X2: the sequence of engine calls [main] makes is fixed in advance: it
    is the same list of 269149 calls whatever the engine returns and
    however numbers are printed; all calls to [mapairy_pdf] come first,
    then those to [mapairy_cdf], then those to [mapairy_quantile]. *)
Theorem calls_independent_of_engine :
  exists cs1 cs2 cs3 : list call,
    (forall (E : Engine) (P : Printer) (w : world),
       exists w', returns (main w) w'
                  /\ calls w' = calls w ++ cs1 ++ cs2 ++ cs3)
    /\ Z.of_nat (length (cs1 ++ cs2 ++ cs3)) = 269149
    /\ Forall (fun c => exists x, c = CallPdf x) cs1
    /\ Forall (fun c => exists x b, c = CallCdf x b) cs2
    /\ Forall (fun c => exists p b, c = CallQuantile p b) cs3.
Proof.
  destruct central_sweep as (xc & Ec & Lc & _).
  destruct tail_sweep as (xt & Et & Lt & _).
  destruct prob_sweep as (xp & Ep & Lp & _).
  destruct lower_sweep as (xl & El & Ll & _).
  destruct upper_sweep as (xu & Eu & Lu & _).
  exists (flat_map calls_pdf xc ++ flat_map calls_pdf xt),
         (flat_map calls_cdf xc ++ flat_map calls_ccdf xt),
         (flat_map calls_quantile xp ++ flat_map calls_quantile xl
          ++ flat_map calls_cquantile xu).
  split; [|split; [|split; [|split]]].
  - intros E P w. exists (main_end xc xt xp xl xu w).
    split; [exact (main_returns xc xt xp xl xu Ec Et Ep El Eu w)|].
    rewrite calls_main_end. now rewrite <- !app_assoc.
  - rewrite !length_app, !Nat2Z.inj_add.
    rewrite !(length_flat_map_const calls_pdf 1) by reflexivity.
    rewrite (length_flat_map_const calls_cdf 2) by reflexivity.
    rewrite (length_flat_map_const calls_ccdf 1) by reflexivity.
    rewrite !(length_flat_map_const calls_quantile 1) by reflexivity.
    rewrite (length_flat_map_const calls_cquantile 1) by reflexivity.
    lia.
  - apply Forall_app; split; apply flat_map_shape;
      intros x c [<-|[]]; now exists x.
  - apply Forall_app; split; apply flat_map_shape.
    + intros x c [<-|[<-|[]]]; now exists x; eexists.
    + intros x c [<-|[]]. now exists x; eexists.
  - repeat (apply Forall_app; split); apply flat_map_shape;
      intros x c [<-|[]]; now exists x; eexists.
Qed.

(** ** The order of doubles *)

Ltac compare_cases :=
  repeat match goal with
         | |- context [Z.compare ?a ?b] =>
             destruct (Z.compare_spec a b)
         | |- context [Pos.compare_cont Eq ?a ?b] =>
             let S := fresh in
             pose proof (Pos.compare_spec a b) as S;
             unfold Pos.compare in S; destruct S
         end.

Lemma ltb_trans (x y z : double) :
  ltb x y = true -> ltb y z = true -> ltb x z = true.
Proof.
  unfold ltb, SFltb.
  destruct x as [sx|sx| |sx mx ex], y as [sy|sy| |sy my ey],
           z as [sz|sz| |sz mz ez];
    cbn [SFcompare]; try discriminate; try reflexivity;
    repeat match goal with s : bool |- _ => destruct s end;
    try discriminate; try reflexivity;
    compare_cases; cbn [CompOpp]; try discriminate; try reflexivity;
    intros _ _; exfalso; lia.
Qed.

Lemma gtb_trans (x y z : double) :
  gtb x y = true -> gtb y z = true -> gtb x z = true.
Proof.
  unfold gtb.
  destruct x as [sx|sx| |sx mx ex], y as [sy|sy| |sy my ey],
           z as [sz|sz| |sz mz ez];
    cbn [SFcompare]; try discriminate; try reflexivity;
    repeat match goal with s : bool |- _ => destruct s end;
    try discriminate; try reflexivity;
    compare_cases; cbn [CompOpp]; try discriminate; try reflexivity;
    intros _ _; exfalso; lia.
Qed.

Lemma ltb_irrefl (x : double) : ltb x x = false.
Proof.
  unfold ltb, SFltb.
  destruct x as [s|s| |s m e]; cbn [SFcompare];
    try (destruct s; reflexivity); try reflexivity.
  destruct s; rewrite Z.compare_refl;
    change (Pos.compare_cont Eq m m) with (Pos.compare m m);
    rewrite Pos.compare_refl; reflexivity.
Qed.

Lemma gtb_irrefl (x : double) : gtb x x = false.
Proof.
  unfold gtb.
  destruct x as [s|s| |s m e]; cbn [SFcompare];
    try (destruct s; reflexivity); try reflexivity.
  destruct s; rewrite Z.compare_refl;
    change (Pos.compare_cont Eq m m) with (Pos.compare m m);
    rewrite Pos.compare_refl; reflexivity.
Qed.

Lemma lt_strongly_sorted (xs : list double) :
  Sorted lt xs -> StronglySorted lt xs /\ NoDup xs.
Proof.
  intros Hs.
  assert (Hss : StronglySorted lt xs).
  { apply Sorted_StronglySorted; [|exact Hs].
    intros x y z. apply ltb_trans. }
  split; [exact Hss|].
  induction Hss as [|x xs Hss IH Hx]; constructor.
  - intros Hin. pose proof (proj1 (Forall_forall _ _) Hx x Hin) as Hxx.
    unfold lt in Hxx. rewrite ltb_irrefl in Hxx. discriminate.
  - apply IH. now inversion Hs.
Qed.

Lemma gt_strongly_sorted (xs : list double) :
  Sorted gt xs -> StronglySorted gt xs /\ NoDup xs.
Proof.
  intros Hs.
  assert (Hss : StronglySorted gt xs).
  { apply Sorted_StronglySorted; [|exact Hs].
    intros x y z. apply gtb_trans. }
  split; [exact Hss|].
  induction Hss as [|x xs Hss IH Hx]; constructor.
  - intros Hin. pose proof (proj1 (Forall_forall _ _) Hx x Hin) as Hxx.
    unfold gt in Hxx. rewrite gtb_irrefl in Hxx. discriminate.
  - apply IH. now inversion Hs.
Qed.

(** X5: within each file no input occurs twice, and any two rows are in
    order, not only neighbouring ones: an earlier row has the smaller
    input in the [x] sweeps and in [plot_quantile], the larger one in the
    two limit quantile sweeps. *)
Theorem rows_pairwise_ordered `{Engine} `{Printer}
    (path : string) (w : world) :
  exists xc xt xp xl xu : list double,
    (StronglySorted lt xc /\ NoDup xc)
    /\ (StronglySorted lt xt /\ NoDup xt)
    /\ (StronglySorted lt xp /\ NoDup xp)
    /\ (StronglySorted gt xl /\ NoDup xl)
    /\ (StronglySorted gt xu /\ NoDup xu)
    /\ returns (plot_pdf path w)
               (swept path "x,pdf" calls_pdf line_pdf xc w)
    /\ returns (plot_pdf_limit path w)
               (swept path "x,pdf" calls_pdf line_pdf xt w)
    /\ returns (plot_cdf path w)
               (swept path "x,cdf,ccdf" calls_cdf line_cdf xc w)
    /\ returns (plot_cdf_limit path w)
               (swept path "x,ccdf" calls_ccdf line_ccdf xt w)
    /\ returns (plot_quantile path w)
               (swept path "x,quantile" calls_quantile line_quantile xp w)
    /\ returns (plot_quantilelower_limit path w)
               (swept path "x,quantile" calls_quantile line_quantile xl w)
    /\ returns (plot_quantileupper_limit path w)
               (swept path "x,cquantile" calls_cquantile line_cquantile
                  xu w).
Proof.
  destruct central_sweep as (xc & Ec & _ & _ & Sc).
  destruct tail_sweep as (xt & Et & _ & _ & St & _).
  destruct prob_sweep as (xp & Ep & _ & _ & Sp & _).
  destruct lower_sweep as (xl & El & _ & _ & Sl & _).
  destruct upper_sweep as (xu & Eu & _ & _ & Su & _).
  exists xc, xt, xp, xl, xu.
  split; [exact (lt_strongly_sorted xc Sc)|].
  split; [exact (lt_strongly_sorted xt St)|].
  split; [exact (lt_strongly_sorted xp Sp)|].
  split; [exact (gt_strongly_sorted xl Sl)|].
  split; [exact (gt_strongly_sorted xu Su)|].
  split; [exact (plot_pdf_returns xc Ec path w)|].
  split; [exact (plot_pdf_limit_returns xt Et path w)|].
  split; [exact (plot_cdf_returns xc Ec path w)|].
  split; [exact (plot_cdf_limit_returns xt Et path w)|].
  split; [exact (plot_quantile_returns xp Ep path w)|].
  split; [exact (plot_quantilelower_limit_returns xl El path w)|].
  exact (plot_quantileupper_limit_returns xu Eu path w).
Qed.

(** ** Ranges read off the grids *)

Lemma grid_between (g : Z -> Q) (xs : list double) (n : Z) (lo hi : Q) :
  Z.of_nat (length xs) = n ->
  (forall i x, nth_error xs i = Some x -> has_value x (g (Z.of_nat i))) ->
  (forall i, 0 <= i < n -> (lo <= g i)%Q /\ (g i <= hi)%Q) ->
  Forall (between lo hi) xs.
Proof.
  intros Hn Hg Hr. apply Forall_forall. intros x Hx.
  apply In_nth_error in Hx. destruct Hx as [i Hi].
  assert (Hlt : (i < length xs)%nat).
  { apply nth_error_Some. now rewrite Hi. }
  destruct (Hg i x Hi) as (v & Hv & E).
  destruct (Hr (Z.of_nat i)) as [H1 H2]; [lia|].
  exists v. split; [exact Hv|]. now rewrite E.
Qed.

Lemma central_grid_range (i : Z) :
  0 <= i < 71681 -> (-6 <= central_grid i)%Q /\ (central_grid i <= 64)%Q.
Proof.
  intros Hi. unfold central_grid, two_power, Qle.
  cbn [Qnum Qden Qplus Qmult inject_Z]. split; lia.
Qed.

Lemma prob_grid_range (i : Z) :
  0 <= i < 8191 ->
  (two_power (-13) <= prob_grid i)%Q
  /\ (prob_grid i <= 1 - two_power (-13))%Q.
Proof.
  intros Hi. unfold prob_grid, two_power, Qle, Qminus.
  cbn [Qnum Qden Qplus Qmult Qopp inject_Z]. split; lia.
Qed.

(** X6: the central sweeps of [plot_pdf] and [plot_cdf] only evaluate the
    engine inside [[-6, 64]], and [plot_quantile] only asks for
    probabilities inside [[2^-13, 1 - 2^-13]]. *)
Theorem central_and_quantile_ranges `{Engine} `{Printer}
    (path : string) (w : world) :
  (exists xs,
     returns (plot_pdf path w) (swept path "x,pdf" calls_pdf line_pdf xs w)
     /\ returns (plot_cdf path w)
                (swept path "x,cdf,ccdf" calls_cdf line_cdf xs w)
     /\ Forall (between (-6) 64) xs)
  /\ (exists ps,
        returns (plot_quantile path w)
                (swept path "x,quantile" calls_quantile line_quantile ps w)
        /\ Forall (between (two_power (-13)) (1 - two_power (-13))) ps).
Proof.
  split.
  - destruct central_sweep as (xc & Ec & Lc & Gc & _).
    exists xc.
    split; [exact (plot_pdf_returns xc Ec path w)|].
    split; [exact (plot_cdf_returns xc Ec path w)|].
    exact (grid_between central_grid xc 71681 _ _ Lc Gc central_grid_range).
  - destruct prob_sweep as (xp & Ep & Lp & Gp & _).
    exists xp.
    split; [exact (plot_quantile_returns xp Ep path w)|].
    exact (grid_between prob_grid xp 8191 _ _ Lp Gp prob_grid_range).
Qed.
